(** * fmmax: scattering-matrix stack engine and differentiable eigensolver

    A shallow embedding of [src/fmmax/scattering.py] and [src/fmmax/_eig.py].

    Conventions of the embedding.
    - Numbers are exact: a complex array entry is a pair of real numbers and
      [jnp.exp] is the complex exponential.  Rounding is not modelled.
    - An array with leading batch axes is represented by its value at one
      batch index together with its batch shape; the operations of the
      engine act on every batch index independently.  The trailing matrix
      axes [(N, N)] are MathComp matrices ['M[C]_n], an eigenvalue vector is
      a row ['rV[C]_n].
    - The leading *layer* axis of [stack_s_matrix_scan] and of the stacked
      arguments of [jax.lax.scan] is a [seq].
    - Python exceptions are the left summand of [exn + T]. *)

From Stdlib Require Import Reals Lra String Ascii DecimalString.
From Stdlib Require Import ClassicalEpsilon FunctionalExtensionality.
From HB Require Import structures.
From mathcomp Require Import boot ssralg matrix.

Set Implicit Arguments.
Unset Strict Implicit.
Unset Printing Implicit Defensive.

Delimit Scope R_scope with Re.

(** ** Complex numbers over the reals *)

Record C : Type := MkC { Re : R; Im : R }.

Definition C0 : C := MkC 0 0.
Definition C1 : C := MkC 1 0.
Definition Cadd (z w : C) : C := MkC (Re z + Re w) (Im z + Im w).
Definition Copp (z : C) : C := MkC (- Re z) (- Im z).
Definition Cmul (z w : C) : C :=
  MkC (Re z * Re w - Im z * Im w) (Re z * Im w + Im z * Re w).

(** [jnp.abs(z) ** 2] *)
Definition Cnormsq (z : C) : R := (Re z * Re z + Im z * Im z)%Re.

Definition Cinv (z : C) : C := MkC (Re z / Cnormsq z) (- Im z / Cnormsq z).

(** [z.conj()] *)
Definition Cconj (z : C) : C := MkC (Re z) (- Im z).

(** [jnp.real(z)], as a complex array entry again *)
Definition Creal (z : C) : C := MkC (Re z) 0.

(** promotion of a real scalar to a complex one *)
Definition RtoC (x : R) : C := MkC x 0.

(** the literal [1j] *)
Definition Ci : C := MkC 0 1.

(** [jnp.exp] on a complex entry *)
Definition Cexp (z : C) : C :=
  MkC (exp (Re z) * cos (Im z)) (exp (Re z) * sin (Im z)).

Definition C_eqb (z w : C) : bool :=
  if Req_dec_T (Re z) (Re w)
  then (if Req_dec_T (Im z) (Im w) then true else false)
  else false.

Definition C_find (P : pred C) (k : nat) : option C :=
  match excluded_middle_informative (exists x, P x = true) with
  | left ex => Some (proj1_sig (constructive_indefinite_description _ ex))
  | right _ => None
  end.

Lemma C_eq (z w : C) : Re z = Re w -> Im z = Im w -> z = w.
Proof. by case: z w => [a b] [c d] /= -> ->. Qed.

Lemma C_eqP : Equality.axiom C_eqb.
Proof.
move=> z w; rewrite /C_eqb.
case: (Req_dec_T _ _) => [e1|n1]; last by constructor => e; apply: n1; rewrite e.
case: (Req_dec_T _ _) => [e2|n2]; last by constructor => e; apply: n2; rewrite e.
by constructor; apply: C_eq.
Qed.

HB.instance Definition _ := hasDecEq.Build C C_eqP.

Lemma C_find_correct (P : pred C) k x : C_find P k = Some x -> P x.
Proof.
rewrite /C_find; case: excluded_middle_informative => // ex [<-].
exact: (proj2_sig (constructive_indefinite_description _ ex)).
Qed.

Lemma C_find_complete (P : pred C) : (exists x, P x) -> exists k, C_find P k.
Proof.
by move=> ex; exists 0; rewrite /C_find; case: excluded_middle_informative.
Qed.

Lemma C_find_ext (P Q : pred C) : P =1 Q -> C_find P =1 C_find Q.
Proof. by move=> PQ k; have -> // : P = Q; apply: functional_extensionality. Qed.

HB.instance Definition _ :=
  hasChoice.Build C C_find_correct C_find_complete C_find_ext.

Ltac Cring := apply: C_eq => /=; ring.

Lemma CaddA : associative Cadd. Proof. by move=> x y z; Cring. Qed.
Lemma CaddC : commutative Cadd. Proof. by move=> x y; Cring. Qed.
Lemma Cadd0z : left_id C0 Cadd. Proof. by move=> x; Cring. Qed.
Lemma CaddNz : left_inverse C0 Copp Cadd. Proof. by move=> x; Cring. Qed.

HB.instance Definition _ := GRing.isZmodule.Build C CaddA CaddC Cadd0z CaddNz.

Lemma CmulA : associative Cmul. Proof. by move=> x y z; Cring. Qed.
Lemma CmulC : commutative Cmul. Proof. by move=> x y; Cring. Qed.
Lemma Cmul1z : left_id C1 Cmul. Proof. by move=> x; Cring. Qed.
Lemma CmulDl : left_distributive Cmul Cadd. Proof. by move=> x y z; Cring. Qed.
Lemma C1_neq0 : C1 != C0. Proof. by apply/eqP => -[] /R1_neq_R0. Qed.

HB.instance Definition _ :=
  GRing.Zmodule_isComNzRing.Build C CmulA CmulC Cmul1z CmulDl C1_neq0.

Lemma Cnormsq_eq0 (z : C) : Cnormsq z = 0%Re -> z = C0.
Proof.
case: z => a b; rewrite /Cnormsq /= => H.
have Ha : (a * a = 0)%Re
  by move: (Rle_0_sqr a) (Rle_0_sqr b); rewrite /Rsqr; lra.
have Hb : (b * b = 0)%Re
  by move: (Rle_0_sqr a) (Rle_0_sqr b); rewrite /Rsqr; lra.
by congr MkC; [case: (Rmult_integral _ _ Ha)|case: (Rmult_integral _ _ Hb)].
Qed.

Lemma CmulVz (z : C) : z != C0 -> Cmul (Cinv z) z = C1.
Proof.
move=> /eqP nz; have : Cnormsq z <> 0%Re by move=> /Cnormsq_eq0.
by rewrite /Cnormsq => nn; apply: C_eq; rewrite /= /Cnormsq; field.
Qed.

Lemma Cinv0 : Cinv C0 = C0.
Proof. by apply: C_eq; rewrite /= /Cnormsq /= /Rdiv; ring. Qed.

HB.instance Definition _ := GRing.ComNzRing_isField.Build C CmulVz Cinv0.

Local Open Scope ring_scope.
Import GRing.Theory.

Lemma CexpD (z w : C) : Cexp (z + w) = Cexp z * Cexp w.
Proof. by apply: C_eq; rewrite /= exp_plus ?cos_plus ?sin_plus; ring. Qed.

Lemma Cexp0 : Cexp 0 = 1.
Proof. by apply: C_eq; rewrite /= exp_0 ?cos_0 ?sin_0; ring. Qed.

(** ** Python exceptions and the error monad *)

Inductive exn : Type :=
  | ValueError (msg : string)
  | IndexError
  | AssertionError.

Definition result (T : Type) : Type := (exn + T)%type.

Definition ret {T : Type} (x : T) : result T := inr x.
Definition raise {T : Type} (e : exn) : result T := inl e.

Definition bind {T U : Type} (m : result T) (k : T -> result U) : result U :=
  match m with
  | inl e => inl e
  | inr x => k x
  end.

Notation "x <- m ;; k" := (bind m (fun x => k))
  (at level 61, m at next level, right associativity).

(** [s[i]] on a Python sequence or on the leading axis of an array, for a
    static non-negative index: [IndexError] when out of range. *)
Definition getitem {T : Type} (s : seq T) (i : nat) : result T :=
  if drop i s is x :: _ then ret x else raise IndexError.

(** [s[-1]] *)
Definition getitem_last {T : Type} (s : seq T) : result T :=
  if s is x :: s' then ret (last x s') else raise IndexError.

(** [tuple(f(i) for i in idx)] where [f] may raise *)
Fixpoint traverse {T U : Type} (f : T -> result U) (s : seq T) : result (seq U) :=
  if s is x :: s' then
    y <- f x ;; ys <- traverse f s' ;; ret (y :: ys)
  else ret [::].

(** Every element of a sequence satisfies [P]. *)
Fixpoint All {T : Type} (P : T -> Prop) (s : seq T) : Prop :=
  if s is x :: s' then P x /\ All P s' else True.

(** [jax.lax.scan(f, init, xs)]: thread the carry through the leading axis
    of [xs], returning the final carry and the stacked outputs. *)
Fixpoint lax_scan {S X Y : Type} (f : S -> X -> S * Y) (init : S) (xs : seq X)
  : S * seq Y :=
  if xs is x :: xs' then
    let: (c, y) := f init x in
    let: (c', ys) := lax_scan f c xs' in
    (c', y :: ys)
  else (init, [::]).

(** The decimal text of a Python [int] inside an f-string. *)
Definition str_of_nat (k : nat) : string :=
  NilEmpty.string_of_uint (Nat.to_uint k).

(** ** Shapes and broadcasting *)

Definition shape : Type := seq nat.

(** One step of [jnp.broadcast_shapes], on shapes read from the trailing axis:
    two extents are compatible when they are equal or one of them is 1. *)
Fixpoint broadcast_rev (s1 s2 : shape) : option shape :=
  match s1, s2 with
  | [::], _ => Some s2
  | _, [::] => Some s1
  | a :: s1', b :: s2' =>
      if a == b then omap (cons a) (broadcast_rev s1' s2')
      else if a == 1%N then omap (cons b) (broadcast_rev s1' s2')
      else if b == 1%N then omap (cons a) (broadcast_rev s1' s2')
      else None
  end.

(** The text of a Python sequence with the given opening, the texts of
    its items separated by a comma and a space, and the closing. *)
Definition repr_items (opening closing : string) (items : seq string)
  : string :=
  String.append opening
    (if items is x :: items' then
       String.append x
         (foldr (fun y acc => String.append ", " (String.append y acc))
            closing items')
     else closing).

(** [repr] of a shape, a tuple of [int]: [()], [(2,)], [(2, 3)]. *)
Definition repr_shape (s : shape) : string :=
  repr_items "(" (if s is [:: _] then ",)" else ")")
    [seq str_of_nat k | k <- s].

(** The message of the [ValueError] of [jnp.broadcast_shapes]: a fixed text
    followed by the list of the shapes it was given, as in
    [Incompatible shapes for broadcasting: shapes=[(2,), (3,)]]. *)
Definition broadcast_msg (shapes : seq shape) : string :=
  String.append "Incompatible shapes for broadcasting: shapes="
    (repr_items "[" "]" [seq repr_shape s | s <- shapes]).

(** [jnp.broadcast_shapes] of a list of shapes; a [ValueError] when two shapes are
    incompatible.  With no argument the result is the empty shape. *)
Definition broadcast_shapes (shapes : seq shape) : result shape :=
  let step acc s :=
    if acc is Some a then omap rev (broadcast_rev (rev a) (rev s)) else None in
  if foldl step (Some [::]) shapes is Some s then ret s
  else raise (ValueError (broadcast_msg shapes)).

Arguments broadcast_shapes : simpl never.

(** A layer thickness is a real scalar, as the docstrings of the engine
    require ("The scalar thicknesses for layers in the stack"):
    [jnp.shape(t)] is the empty shape and [jnp.broadcast_to(t, shape)] has
    the value of [t] at every index.  Thickness arrays with axes of their
    own, whose shapes [jnp.broadcast_shapes] could reject, are outside the
    embedding. *)
Definition thickness : Type := R.
Definition jnp_shape (t : thickness) : shape := [::].
Definition broadcast_to (t : thickness) (s : shape) : thickness := t.

(** ** Array operations on the trailing matrix axes *)

Section Arrays.

Variable n : nat.

(** [q[..., jnp.newaxis] * m]: row [r] of [m] times [q[r]]. *)
Definition scale_rows (q : 'rV[C]_n) (m : 'M[C]_n) : 'M[C]_n :=
  \matrix_(r, c) (q 0 r * m r c).

(** [m * v[..., jnp.newaxis, :]]: column [c] of [m] times [v[c]]. *)
Definition scale_cols (m : 'M[C]_n) (v : 'rV[C]_n) : 'M[C]_n :=
  \matrix_(r, c) (m r c * v 0 c).

(** [jnp.ones_like(v)], [jnp.zeros_like(m)] *)
Definition ones_like (v : 'rV[C]_n) : 'rV[C]_n := const_mx 1.
Definition zeros_like (m : 'M[C]_n) : 'M[C]_n := const_mx 0.

(** Modelled from the spec: [misc.diag] (fmmax/misc.py is not among the
    sources) builds the matrix with the given vector on its diagonal and
    zero elsewhere; the spec's identity block is [diag] of a vector of ones. *)
Definition diag (v : 'rV[C]_n) : 'M[C]_n := diag_mx v.

(** [m[..., 0]]: the entries of column 0, one per row (with [N = 0] there
    is neither a row nor a column). *)
Definition column0 (m : 'M[C]_n) : 'rV[C]_n :=
  \row_r (if insub 0%N is Some c then m r c else 0).

(** [jnp.exp(1j * q * t)] for an eigenvalue vector [q] and a real [t] *)
Definition phase (q : 'rV[C]_n) (t : R) : 'rV[C]_n :=
  map_mx (fun x => Cexp (Ci * x * RtoC t)) q.

(** [(1 / q)] entrywise *)
Definition recip (q : 'rV[C]_n) : 'rV[C]_n := map_mx (fun x => 1 / x) q.

(** the literal [0.5] *)
Definition half : C := RtoC 0.5.

End Arrays.

(** ** The scattering-matrix engine ([scattering.py]) *)

Section Scattering.

(** The expansion size [N]. *)
Variable n : nat.

(** The type of a tangent vector field, which the engine never inspects. *)
Variable tangent_field : Type.

(** [fmm.LayerSolveResult], restricted to the attributes the engine reads:
    the batch shape, the eigenvalues, the eigenvectors, the omega-script-k
    matrix, and the optional tangent vector field. *)
Record LayerSolveResult : Type := MkLayerSolveResult {
  batch_shape : shape;
  eigenvalues : 'rV[C]_n;
  eigenvectors : 'M[C]_n;
  omega_script_k_matrix : 'M[C]_n;
  tangent_vector_field : option tangent_field
}.

Record ScatteringMatrix : Type := MkScatteringMatrix {
  s11 : 'M[C]_n;
  s12 : 'M[C]_n;
  s21 : 'M[C]_n;
  s22 : 'M[C]_n;
  start_layer_solve_result : LayerSolveResult;
  start_layer_thickness : thickness;
  end_layer_solve_result : LayerSolveResult;
  end_layer_thickness : thickness
}.

(** [utils.solve(a, b, force_x64_solve=...)] (fmmax/utils.py is not among the
    sources): the solution [x] of [a @ x = b]. *)
Variable solve : 'M[C]_n -> 'M[C]_n -> bool -> 'M[C]_n.

(** [fmm.broadcast_result(lsr, shape)] (fmmax/fmm.py is not among the
    sources): the solve result with its attributes broadcast to a batch
    shape. *)
Variable broadcast_result : LayerSolveResult -> shape -> LayerSolveResult.

(** [dataclasses.replace(solve_result, tangent_vector_field=None)] *)
Definition replace_tangent_vector_field_None (l : LayerSolveResult)
  : LayerSolveResult :=
  MkLayerSolveResult (batch_shape l) (eigenvalues l) (eigenvectors l)
    (omega_script_k_matrix l) None.

Definition _extend_s_matrix
    (s_matrix_blocks : 'M[C]_n * 'M[C]_n * 'M[C]_n * 'M[C]_n)
    (layer_solve_result : LayerSolveResult) (layer_thickness : thickness)
    (next_layer_solve_result : LayerSolveResult)
    (next_layer_thickness : thickness) (force_x64_solve : bool)
  : 'M[C]_n * 'M[C]_n * 'M[C]_n * 'M[C]_n :=
  let q := eigenvalues layer_solve_result in
  let phi := eigenvectors layer_solve_result in
  let omega_k := omega_script_k_matrix layer_solve_result in
  let next_q := eigenvalues next_layer_solve_result in
  let next_phi := eigenvectors next_layer_solve_result in
  let next_omega_k := omega_script_k_matrix next_layer_solve_result in
  let solve a b := solve a b force_x64_solve in
  let term1 :=
    scale_rows q
      (solve (omega_k *m phi)
             (scale_cols (next_omega_k *m next_phi) (recip next_q))) in
  let term2 := solve (omega_k *m phi) (omega_k *m next_phi) in
  let i11 := half *: (term1 + term2) in
  let i22 := i11 in
  let i12 := half *: (- term1 + term2) in
  let i21 := i12 in
  let fd := phase q layer_thickness in
  let fd_next := phase next_q next_layer_thickness in
  let: (s11, s12, s21, s22) := s_matrix_blocks in
  let term3 := i11 - scale_rows fd s12 *m i21 in
  let s11_next := solve term3 (scale_rows fd s11) in
  let s12_next :=
    solve term3 (scale_cols (scale_rows fd s12 *m i22 - i12) fd_next) in
  let s21_next := s22 *m i21 *m s11_next + s21 in
  let s22_next := s22 *m i21 *m s12_next + scale_cols (s22 *m i22) fd_next in
  (s11_next, s12_next, s21_next, s22_next).

Definition append_layer (s_matrix : ScatteringMatrix)
    (next_layer_solve_result : LayerSolveResult)
    (next_layer_thickness : thickness) (force_x64_solve : bool)
  : ScatteringMatrix :=
  let: (s11_next, s12_next, s21_next, s22_next) :=
    _extend_s_matrix
      (s11 s_matrix, s12 s_matrix, s21 s_matrix, s22 s_matrix)
      (end_layer_solve_result s_matrix) (end_layer_thickness s_matrix)
      next_layer_solve_result next_layer_thickness force_x64_solve in
  MkScatteringMatrix s11_next s12_next s21_next s22_next
    (start_layer_solve_result s_matrix) (start_layer_thickness s_matrix)
    next_layer_solve_result next_layer_thickness.

Definition prepend_layer (s_matrix : ScatteringMatrix)
    (next_layer_solve_result : LayerSolveResult)
    (next_layer_thickness : thickness) (force_x64_solve : bool)
  : ScatteringMatrix :=
  let: (s22_next, s21_next, s12_next, s11_next) :=
    _extend_s_matrix
      (s22 s_matrix, s21 s_matrix, s12 s_matrix, s11 s_matrix)
      (start_layer_solve_result s_matrix) (start_layer_thickness s_matrix)
      next_layer_solve_result next_layer_thickness force_x64_solve in
  MkScatteringMatrix s11_next s12_next s21_next s22_next
    next_layer_solve_result next_layer_thickness
    (end_layer_solve_result s_matrix) (end_layer_thickness s_matrix).

Definition _pair_s_matrix
    (layer_solve_result : LayerSolveResult) (layer_thickness : thickness)
    (next_layer_solve_result : LayerSolveResult)
    (next_layer_thickness : thickness) (force_x64_solve : bool)
  : ScatteringMatrix :=
  let q := eigenvalues layer_solve_result in
  let phi := eigenvectors layer_solve_result in
  let omega_k := omega_script_k_matrix layer_solve_result in
  let next_q := eigenvalues next_layer_solve_result in
  let next_phi := eigenvectors next_layer_solve_result in
  let next_omega_k := omega_script_k_matrix next_layer_solve_result in
  let solve a b := solve a b force_x64_solve in
  let term1 :=
    scale_rows q
      (solve (omega_k *m phi)
             (scale_cols (next_omega_k *m next_phi) (recip next_q))) in
  let term2 := solve (omega_k *m phi) (omega_k *m next_phi) in
  let i11 := half *: (term1 + term2) in
  let i22 := i11 in
  let i12 := half *: (- term1 + term2) in
  let i21 := i12 in
  let fd := phase q layer_thickness in
  let fd_next := phase next_q next_layer_thickness in
  let fd_diag := diag fd in
  let s11 := solve i11 fd_diag in
  let s12 := solve i11 (scale_cols (- i12) fd_next) in
  let s21 := i21 *m s11 in
  let s22 := i21 *m s12 + scale_cols i22 fd_next in
  MkScatteringMatrix s11 s12 s21 s22
    layer_solve_result layer_thickness
    next_layer_solve_result next_layer_thickness.

Definition redheffer_star_product (a b : ScatteringMatrix)
    (force_x64_solve : bool) : ScatteringMatrix :=
  let a_extended :=
    append_layer a (start_layer_solve_result b) (start_layer_thickness b)
      false in
  let: (a11, a12, a21, a22) :=
    (s11 a_extended, s12 a_extended, s21 a_extended, s22 a_extended) in
  let: (b11, b12, b21, b22) := (s11 b, s12 b, s21 b, s22 b) in
  let solve x y := solve x y force_x64_solve in
  let eye := diag (ones_like (column0 a11)) in
  let s11 := b11 *m solve (eye - a12 *m b21) a11 in
  let s12 := b12 + b11 *m solve (eye - a12 *m b21) (a12 *m b22) in
  let s21 := a21 + a22 *m solve (eye - b21 *m a12) (b21 *m a11) in
  let s22 := a22 *m solve (eye - b21 *m a12) b22 in
  MkScatteringMatrix s11 s12 s21 s22
    (start_layer_solve_result a) (start_layer_thickness a)
    (end_layer_solve_result b) (end_layer_thickness b).

Definition set_end_layer_thickness (s_matrix : ScatteringMatrix)
    (thickness : thickness) : ScatteringMatrix :=
  let q := eigenvalues (end_layer_solve_result s_matrix) in
  let fd := phase q (thickness - end_layer_thickness s_matrix)%Re in
  MkScatteringMatrix
    (s11 s_matrix) (scale_cols (s12 s_matrix) fd)
    (s21 s_matrix) (scale_cols (s22 s_matrix) fd)
    (start_layer_solve_result s_matrix) (start_layer_thickness s_matrix)
    (end_layer_solve_result s_matrix) thickness.

Definition set_start_layer_thickness (s_matrix : ScatteringMatrix)
    (thickness : thickness) : ScatteringMatrix :=
  let q := eigenvalues (start_layer_solve_result s_matrix) in
  let fd := phase q (thickness - start_layer_thickness s_matrix)%Re in
  MkScatteringMatrix
    (scale_cols (s11 s_matrix) fd) (s12 s_matrix)
    (scale_cols (s21 s_matrix) fd) (s22 s_matrix)
    (start_layer_solve_result s_matrix) thickness
    (end_layer_solve_result s_matrix) (end_layer_thickness s_matrix).

(** [jnp.stack(xs, axis=0)], mapped over the leaves of a pytree: the leading
    axis of the result lists the stacked values in order. *)
Definition jnp_stack {T : Type} (xs : seq T) : seq T := xs.

(** The message of the length check of [_stack_s_matrices]. *)
Definition length_mismatch_msg (a b : nat) : string :=
  String.append
    "`layer_solve_results` and `layer_thicknesses` should have the same length but got "
    (String.append (str_of_nat a)
       (String.append " and " (String.append (str_of_nat b) "."))).

Definition _stack_s_matrices (layer_solve_results : seq LayerSolveResult)
    (layer_thicknesses : seq thickness) (force_x64_solve : bool)
  : result (seq ScatteringMatrix) :=
  if size layer_solve_results != size layer_thicknesses then
    raise (ValueError (length_mismatch_msg (size layer_solve_results)
                                           (size layer_thicknesses)))
  else
  let layer_solve_results :=
    [seq replace_tangent_vector_field_None solve_result
    | solve_result <- layer_solve_results] in
  batch_shape <- broadcast_shapes
                   [seq batch_shape lsr | lsr <- layer_solve_results] ;;
  let layer_solve_results :=
    [seq broadcast_result lsr batch_shape | lsr <- layer_solve_results] in
  t_shape <- broadcast_shapes [seq jnp_shape t | t <- layer_thicknesses] ;;
  let layer_thicknesses :=
    [seq broadcast_to t t_shape | t <- layer_thicknesses] in
  lsr0 <- getitem layer_solve_results 0 ;;
  let eye := diag (ones_like (eigenvalues lsr0)) in
  t0 <- getitem layer_thicknesses 0 ;;
  let layer_s_matrix_0 :=
    MkScatteringMatrix eye (zeros_like eye) (zeros_like eye) eye
      lsr0 t0 lsr0 t0 in
  if size layer_solve_results == 1%N then ret [:: layer_s_matrix_0] else
  lsr1 <- getitem layer_solve_results 1 ;;
  t1 <- getitem layer_thicknesses 1 ;;
  let layer_s_matrix_1 := _pair_s_matrix lsr0 t0 lsr1 t1 force_x64_solve in
  if size layer_solve_results == 2%N then
    ret [:: layer_s_matrix_0; layer_s_matrix_1]
  else
  let stacked_remaining_solve_results :=
    jnp_stack (drop 2 layer_solve_results) in
  let stacked_remaining_thicknesses := jnp_stack (drop 2 layer_thicknesses) in
  let scan_fn s_matrix args :=
    let: (next_layer_solve_result, next_layer_thickness) := args in
    let s_matrix :=
      append_layer s_matrix next_layer_solve_result next_layer_thickness
        force_x64_solve in
    (s_matrix, s_matrix) in
  let: (_, stacked_remaining_s_matrices) :=
    lax_scan scan_fn layer_s_matrix_1
      (zip stacked_remaining_solve_results stacked_remaining_thicknesses) in
  remaining_s_matrices <-
    traverse (getitem stacked_remaining_s_matrices)
      (iota 0 (size layer_solve_results - 2)) ;;
  ret ([:: layer_s_matrix_0; layer_s_matrix_1] ++ remaining_s_matrices).

Definition stack_s_matrix (layer_solve_results : seq LayerSolveResult)
    (layer_thicknesses : seq thickness) (force_x64_solve : bool)
  : result ScatteringMatrix :=
  s_matrices <- _stack_s_matrices layer_solve_results layer_thicknesses
                  force_x64_solve ;;
  getitem_last s_matrices.

(** The exchange of the two ends of a scattering matrix that
    [stack_s_matrices_interior] applies to each matrix of the reversed
    stack: [s11] with [s22], [s12] with [s21], start layer with end layer. *)
Definition block_swap (s : ScatteringMatrix) : ScatteringMatrix :=
  MkScatteringMatrix (s22 s) (s21 s) (s12 s) (s11 s)
    (end_layer_solve_result s) (end_layer_thickness s)
    (start_layer_solve_result s) (start_layer_thickness s).

Definition stack_s_matrices_interior
    (layer_solve_results : seq LayerSolveResult)
    (layer_thicknesses : seq thickness) (force_x64_solve : bool)
  : result (seq (ScatteringMatrix * ScatteringMatrix)) :=
  before <- _stack_s_matrices layer_solve_results layer_thicknesses
              force_x64_solve ;;
  reverse <- _stack_s_matrices (rev layer_solve_results)
               (rev layer_thicknesses) force_x64_solve ;;
  let after := [seq block_swap s | s <- rev reverse] in
  ret (zip before after).

(** The thicknesses argument of [stack_s_matrix_scan]: an array with [ndim]
    axes whose leading axis lists [entries]. *)
Record thickness_array : Type := MkThicknessArray {
  ndim : nat;
  entries : seq thickness
}.

(** [layer_thicknesses.shape[0]] and [len(layer_thicknesses)] *)
Definition len (a : thickness_array) : nat := size (entries a).

(** The batch shape of solve results stacked along a leading layer axis:
    the number of layers, then the batch shape of a layer. *)
Definition stacked_batch_shape (ls : seq LayerSolveResult) : shape :=
  size ls :: (if ls is l :: _ then batch_shape l else [::]).

(** The message of the compatibility check of [stack_s_matrix_scan]. *)
Definition layer_number_mismatch_msg (a b : nat) : string :=
  String.append
    "`layer_solve_results` and `layer_thicknesses` should be compatible (i.e. correspond to the same number of layers) but inferred layer numbers of "
    (String.append (str_of_nat a)
       (String.append " and " (String.append (str_of_nat b) "."))).

(** [jnp.ones(eigenvalues.shape[1:])] *)
Definition jnp_ones : 'rV[C]_n := const_mx 1.

Definition stack_s_matrix_scan (layer_solve_results : seq LayerSolveResult)
    (layer_thicknesses : thickness_array) (force_x64_solve : bool)
  : result ScatteringMatrix :=
  if ndim layer_thicknesses != 1%N then raise AssertionError else
  b0 <- getitem (stacked_batch_shape layer_solve_results) 0 ;;
  if b0 != len layer_thicknesses then
    raise (ValueError (layer_number_mismatch_msg b0 (len layer_thicknesses)))
  else
  let eye := diag jnp_ones in
  start_solve_result <- getitem layer_solve_results 0 ;;
  t0 <- getitem (entries layer_thicknesses) 0 ;;
  let s_matrix :=
    MkScatteringMatrix eye (zeros_like eye) (zeros_like eye) eye
      start_solve_result t0 start_solve_result t0 in
  let scan_fn s_matrix x :=
    let: (next_layer_solve_result, next_layer_thickness) := x in
    let s_matrix :=
      append_layer s_matrix next_layer_solve_result next_layer_thickness
        force_x64_solve in
    (s_matrix, s_matrix) in
  let: (s_matrix, _) :=
    lax_scan scan_fn s_matrix
      (zip (drop 1 layer_solve_results) (drop 1 (entries layer_thicknesses))) in
  ret s_matrix.

(** *** Properties of the engine *)

Lemma diag_ones_like (v : 'rV[C]_n) : diag (ones_like v) = 1%:M.
Proof. by rewrite /diag /ones_like diag_const_mx. Qed.

Lemma zeros_likeE (m : 'M[C]_n) : zeros_like m = 0.
Proof. by apply/matrixP => i j; rewrite !mxE. Qed.

Lemma broadcast_rev_nil (s : shape) : broadcast_rev [::] s = Some s.
Proof. by case: s. Qed.

Lemma broadcast_rev_same (s : shape) : broadcast_rev s s = Some s.
Proof. by elim: s => //= a s ->; rewrite eqxx. Qed.

Lemma broadcast_shapes_one (s : shape) : broadcast_shapes [:: s] = ret s.
Proof. by rewrite /broadcast_shapes /= ?broadcast_rev_nil /= revK. Qed.

(** C1. A stack of a single layer: [stack_s_matrix] returns, for every
    eigenmode solution and thickness, the scattering matrix whose [s11] and
    [s22] are the identity and whose [s12] and [s21] are zero; its start
    layer and its end layer are the same solve result (the given one, with
    the tangent field removed and broadcast to its own batch shape) and the
    same thickness. *)
Theorem stack_s_matrix_single_layer_identity
    (l : LayerSolveResult) (t : thickness) (force_x64_solve : bool) :
  exists s : ScatteringMatrix,
    [/\ stack_s_matrix [:: l] [:: t] force_x64_solve = ret s,
        s11 s = 1%:M /\ s22 s = 1%:M,
        s12 s = 0 /\ s21 s = 0,
        start_layer_solve_result s = end_layer_solve_result s /\
        end_layer_solve_result s =
          broadcast_result (replace_tangent_vector_field_None l)
            (batch_shape l)
      & start_layer_thickness s = t /\ end_layer_thickness s = t].
Proof.
rewrite /stack_s_matrix /_stack_s_matrices /= !revK.
by eexists; split; first by []; rewrite /= ?diag_ones_like ?zeros_likeE.
Qed.

(** C5. [prepend_layer] is [append_layer] on the block-swapped scattering
    matrix, swapped back. *)
Theorem prepend_layer_block_swap
    (s : ScatteringMatrix) (layer : LayerSolveResult) (t : thickness)
    (force_x64_solve : bool) :
  prepend_layer s layer t force_x64_solve =
  block_swap (append_layer (block_swap s) layer t force_x64_solve).
Proof.
by case: s => a11 a12 a21 a22 ls ts le te.
Qed.

(** *** The shape of the reduction

    The value of [_stack_s_matrices] on well-formed arguments, written as a
    plain recursion: the identity for the first layer, the pair matrix for
    the first two, then one [append_layer] per remaining layer. *)

Definition identity_s_matrix (l : LayerSolveResult) (t : thickness)
  : ScatteringMatrix :=
  MkScatteringMatrix 1%:M 0 0 1%:M l t l t.

Definition append_step (force_x64_solve : bool) (s : ScatteringMatrix)
    (x : LayerSolveResult * thickness) : ScatteringMatrix :=
  append_layer s x.1 x.2 force_x64_solve.

Definition prefix_s_matrices (force_x64_solve : bool)
    (layers : seq (LayerSolveResult * thickness)) : seq ScatteringMatrix :=
  match layers with
  | [::] => [::]
  | (l0, t0) :: rest =>
      identity_s_matrix l0 t0 ::
      match rest with
      | [::] => [::]
      | (l1, t1) :: rest' =>
          let p := _pair_s_matrix l0 t0 l1 t1 force_x64_solve in
          p :: scanl (append_step force_x64_solve) p rest'
      end
  end.

(** The solve results as [_stack_s_matrices] stores them. *)
Definition stored_layer (bs : shape) (l : LayerSolveResult) : LayerSolveResult :=
  broadcast_result (replace_tangent_vector_field_None l) bs.

Lemma broadcast_shapes_scalars (ts : seq thickness) :
  broadcast_shapes [seq jnp_shape t | t <- ts] = ret [::].
Proof.
rewrite /broadcast_shapes.
have -> // : foldl (fun acc s => if acc is Some a
                 then omap rev (broadcast_rev (rev a) (rev s)) else None)
               (Some [::]) [seq jnp_shape t | t <- ts] = Some [::].
by elim: ts => //= t ts IH.
Qed.

Lemma broadcast_to_scalars (ts : seq thickness) (s : shape) :
  [seq broadcast_to t s | t <- ts] = ts.
Proof. by rewrite /broadcast_to map_id. Qed.

Lemma batch_shape_replace (ls : seq LayerSolveResult) :
  [seq batch_shape lsr
  | lsr <- [seq replace_tangent_vector_field_None l | l <- ls]] =
  [seq batch_shape l | l <- ls].
Proof. by rewrite -map_comp; apply: eq_map => l. Qed.

Lemma getitem0 (T : Type) (x : T) (s : seq T) : getitem (x :: s) 0 = ret x.
Proof. by []. Qed.

Lemma getitem1 (T : Type) (x y : T) (s : seq T) :
  getitem [:: x, y & s] 1 = ret y.
Proof. by []. Qed.

Lemma traverse_getitem (T : Type) (p s : seq T) :
  traverse (getitem (p ++ s)) (iota (size p) (size s)) = ret s.
Proof.
elim: s p => [|x s IH] p //=.
rewrite /getitem drop_size_cat //= -cat_rcons.
by have := IH (rcons p x); rewrite size_rcons => ->.
Qed.

Lemma eq_lax_scan (S X Y : Type) (f f' : S -> X -> S * Y) :
  (forall s x, f s x = f' s x) ->
  forall init xs, lax_scan f init xs = lax_scan f' init xs.
Proof.
move=> ff' init xs; elim: xs init => //= x xs IH init.
by rewrite ff'; case: (f' init x) => c y; rewrite IH.
Qed.

Lemma lax_scan_dup (S X : Type) (g : S -> X -> S) (init : S) (xs : seq X) :
  lax_scan (fun s x => (g s x, g s x)) init xs =
  (foldl g init xs, scanl g init xs).
Proof. by elim: xs init => //= x xs IH init; rewrite IH. Qed.

Lemma stack_s_matricesE (ls : seq LayerSolveResult) (ts : seq thickness)
    (bs : shape) (force_x64_solve : bool) :
  size ls = size ts ->
  broadcast_shapes [seq batch_shape l | l <- ls] = ret bs ->
  _stack_s_matrices ls ts force_x64_solve =
  if ls is [::] then raise IndexError
  else ret (prefix_s_matrices force_x64_solve
              (zip [seq stored_layer bs l | l <- ls] ts)).
Proof.
move=> sz Hbs; rewrite /_stack_s_matrices sz eqxx /= batch_shape_replace Hbs /=.
rewrite broadcast_shapes_scalars /= broadcast_to_scalars -map_comp.
rewrite -[map _ ls]/(map (stored_layer bs) ls) size_map.
case: ls ts sz {Hbs} => [|l0 ls] [|t0 ts] //= [sz].
rewrite ?getitem0 /= diag_ones_like zeros_likeE -/(identity_s_matrix _ _).
case: ls ts sz => [|l1 ls] [|t1 ts] //= [sz].
rewrite ?getitem1 /=.
case: ls ts sz => [|l2 ls] [|t2 ts] // sz.
have -> : ((size (l2 :: ls)).+2 == 2%N) = false by [].
rewrite (_ : (size (l2 :: ls)).+2 - 2 = size (l2 :: ls))%N;
  first by rewrite !subSS subn0.
rewrite /jnp_stack !drop0.
set p := _pair_s_matrix _ _ _ _ _; set rest := zip _ _.
rewrite (@eq_lax_scan _ _ _ _
           (fun s x => (append_step force_x64_solve s x,
                        append_step force_x64_solve s x))); first by move=> s [l t].
rewrite lax_scan_dup.
have szr : size (l2 :: ls) = size (scanl (append_step force_x64_solve) p rest).
  by rewrite size_scanl /rest size_zip size_map sz minnn.
by rewrite szr (traverse_getitem [::]).
Qed.



(** Row and column scaling are products with a diagonal matrix. *)

Lemma scale_rowsE (q : 'rV[C]_n) (m : 'M[C]_n) : scale_rows q m = diag q *m m.
Proof. by apply/matrixP => i j; rewrite /diag mul_diag_mx !mxE. Qed.

Lemma scale_colsE (m : 'M[C]_n) (v : 'rV[C]_n) : scale_cols m v = m *m diag v.
Proof. by apply/matrixP => i j; rewrite /diag mul_mx_diag !mxE. Qed.

Lemma scale_rows0 (q : 'rV[C]_n) : scale_rows q 0 = 0.
Proof. by rewrite scale_rowsE mulmx0. Qed.

Lemma scale_rows1 (q : 'rV[C]_n) : scale_rows q 1%:M = diag q.
Proof. by rewrite scale_rowsE mulmx1. Qed.

(** The pair matrix is the identity matrix of the first layer extended by
    the second layer, as the comment in [_pair_s_matrix] says. *)
Lemma append_layer_identity (l0 l1 : LayerSolveResult) (t0 t1 : thickness)
    (force_x64_solve : bool) :
  append_layer (identity_s_matrix l0 t0) l1 t1 force_x64_solve =
  _pair_s_matrix l0 t0 l1 t1 force_x64_solve.
Proof.
rewrite /append_layer /_pair_s_matrix /_extend_s_matrix /=.
by rewrite !scale_rows0 !mul0mx subr0 sub0r scale_rows1 !mul1mx addr0.
Qed.

Lemma stack_s_matrix_scanE (ls : seq LayerSolveResult) (ts : seq thickness)
    (force_x64_solve : bool) :
  size ls = size ts ->
  stack_s_matrix_scan ls (MkThicknessArray 1 ts) force_x64_solve =
  match ls, ts with
  | l0 :: ls', t0 :: ts' =>
      ret (foldl (append_step force_x64_solve) (identity_s_matrix l0 t0)
             (zip ls' ts'))
  | _, _ => raise IndexError
  end.
Proof.
move=> sz; rewrite /stack_s_matrix_scan /= /len /= sz eqxx /=.
case: ls ts sz => [|l0 ls] [|t0 ts] //= _.
rewrite !drop0 /diag /jnp_ones diag_const_mx zeros_likeE.
rewrite (@eq_lax_scan _ _ _ _
           (fun s x => (append_step force_x64_solve s x,
                        append_step force_x64_solve s x))); first by move=> s [l t].
by rewrite lax_scan_dup.
Qed.

(** The final matrix of the reduction is a left fold of [append_layer] from
    the identity matrix of the first layer. *)

Lemma last_scanl (S X : Type) (g : S -> X -> S) (x : S) (xs : seq X) :
  last x (scanl g x xs) = foldl g x xs.
Proof. by elim: xs x => //= y xs IH x. Qed.

Lemma getitem_last_prefix (force_x64_solve : bool) (l0 : LayerSolveResult)
    (t0 : thickness) (rest : seq (LayerSolveResult * thickness)) :
  getitem_last (prefix_s_matrices force_x64_solve ((l0, t0) :: rest)) =
  ret (foldl (append_step force_x64_solve) (identity_s_matrix l0 t0) rest).
Proof.
case: rest => [|[l1 t1] rest] //=.
by rewrite last_scanl /append_step /= append_layer_identity.
Qed.

Lemma stack_s_matrixE (ls : seq LayerSolveResult) (ts : seq thickness)
    (bs : shape) (force_x64_solve : bool) :
  size ls = size ts ->
  broadcast_shapes [seq batch_shape l | l <- ls] = ret bs ->
  stack_s_matrix ls ts force_x64_solve =
  match ls, ts with
  | l0 :: ls', t0 :: ts' =>
      ret (foldl (append_step force_x64_solve)
             (identity_s_matrix (stored_layer bs l0) t0)
             (zip [seq stored_layer bs l | l <- ls'] ts'))
  | _, _ => raise IndexError
  end.
Proof.
move=> sz Hbs; rewrite /stack_s_matrix (stack_s_matricesE _ sz Hbs).
case: ls ts sz {Hbs} => [|l0 ls] [|t0 ts] // _.
exact: (getitem_last_prefix force_x64_solve (stored_layer bs l0) t0
          (zip [seq stored_layer bs l | l <- ls] ts)).
Qed.

(** *** Dependence on the modes only *)

(** Two solve results with the same eigenvalues, eigenvectors and
    omega-script-k matrix. *)
Definition same_modes (l l' : LayerSolveResult) : Prop :=
  [/\ eigenvalues l = eigenvalues l',
      eigenvectors l = eigenvectors l'
    & omega_script_k_matrix l = omega_script_k_matrix l'].

(** The four blocks [(s11, s12, s21, s22)]. *)
Definition blocks (s : ScatteringMatrix)
  : 'M[C]_n * 'M[C]_n * 'M[C]_n * 'M[C]_n :=
  (s11 s, s12 s, s21 s, s22 s).

(** Two scattering matrices that [append_layer] cannot tell apart. *)
Definition same_state (s s' : ScatteringMatrix) : Prop :=
  [/\ blocks s = blocks s',
      same_modes (end_layer_solve_result s) (end_layer_solve_result s')
    & end_layer_thickness s = end_layer_thickness s'].

Lemma extend_s_matrix_modes b (l l' m m' : LayerSolveResult)
    (t t' : thickness) (force_x64_solve : bool) :
  same_modes l l' -> same_modes m m' ->
  _extend_s_matrix b l t m t' force_x64_solve =
  _extend_s_matrix b l' t m' t' force_x64_solve.
Proof.
by rewrite /_extend_s_matrix => -[-> -> ->] [-> -> ->].
Qed.

Lemma append_layer_state (s s' : ScatteringMatrix) (m m' : LayerSolveResult)
    (t : thickness) (force_x64_solve : bool) :
  same_state s s' -> same_modes m m' ->
  same_state (append_layer s m t force_x64_solve)
             (append_layer s' m' t force_x64_solve).
Proof.
move=> [[e11 e12 e21 e22] el et] em; rewrite /append_layer.
rewrite e11 e12 e21 e22 et (extend_s_matrix_modes _ _ _ _ el em).
by case: (_extend_s_matrix _ _ _ _ _ _) => [[[a b] c] d].
Qed.

Lemma foldl_append_state (P : pred LayerSolveResult)
    (g : LayerSolveResult -> LayerSolveResult)
    (force_x64_solve : bool) (ls : seq LayerSolveResult) (ts : seq thickness)
    (s s' : ScatteringMatrix) :
  (forall l, P l -> same_modes (g l) l) -> all P ls -> same_state s s' ->
  same_state
    (foldl (append_step force_x64_solve) s (zip [seq g l | l <- ls] ts))
    (foldl (append_step force_x64_solve) s' (zip ls ts)).
Proof.
move=> Hg; elim: ls ts s s' => [|l ls IH] [|t ts] s s' //= /andP[Pl Pls] st.
apply: IH => //; rewrite /append_step /=.
by apply: append_layer_state => //; apply: Hg.
Qed.

Lemma broadcast_shapes_same (bs : shape) (ss : seq shape) :
  all (pred1 bs) ss -> ss != [::] -> broadcast_shapes ss = ret bs.
Proof.
rewrite /broadcast_shapes; case: ss => [|s ss] //= /andP[/eqP-> Hall] _.
rewrite revK.
have -> // : foldl (fun acc s => if acc is Some a
                 then omap rev (broadcast_rev (rev a) (rev s)) else None)
               (Some bs) ss = Some bs.
elim: ss Hall => //= s' ss IH /andP[/eqP-> Hall].
by rewrite broadcast_rev_same /= revK IH.
Qed.

Lemma stored_layer_modes (l : LayerSolveResult) :
  (forall l', same_modes (broadcast_result l' (batch_shape l')) l') ->
  same_modes (stored_layer (batch_shape l) l) l.
Proof.
by move=> Hb; case: (Hb (replace_tangent_vector_field_None l)).
Qed.

(** C3. For every non-empty sequence of layers with one thickness per layer,
    [stack_s_matrix_scan] on the layers stacked along a leading axis (so
    all of one batch shape) returns a scattering matrix with the same four
    blocks as [stack_s_matrix] on the sequence.  [fmm.broadcast_result] is
    assumed to leave the eigenvalues, the eigenvectors and the
    omega-script-k matrix of a solve result unchanged when it broadcasts the
    result to its own batch shape. *)
Theorem stack_s_matrix_scan_same_blocks
    (ls : seq LayerSolveResult) (ts : seq thickness) (bs : shape)
    (force_x64_solve : bool) :
  (0 < size ls)%N -> size ls = size ts ->
  all (fun l => batch_shape l == bs) ls ->
  (forall l, same_modes (broadcast_result l (batch_shape l)) l) ->
  exists s s' : ScatteringMatrix,
    [/\ stack_s_matrix ls ts force_x64_solve = ret s,
        stack_s_matrix_scan ls (MkThicknessArray 1 ts) force_x64_solve = ret s'
      & blocks s = blocks s'].
Proof.
move=> pos sz Hall Hb.
have Hbs : broadcast_shapes [seq batch_shape l | l <- ls] = ret bs.
  apply: broadcast_shapes_same; last by case: ls pos {sz Hall}.
  by rewrite all_map; apply: sub_all Hall => l /=; rewrite eq_sym.
rewrite (stack_s_matrixE _ sz Hbs) (stack_s_matrix_scanE _ sz).
case: ls ts pos sz Hall {Hbs} => [|l0 ls] [|t0 ts] //= _ _ /andP[/eqP e0 Hall].
do 2![eexists]; split; [by []|by []|].
have [] // := @foldl_append_state (fun l => batch_shape l == bs)
  (stored_layer bs) force_x64_solve ls ts
  (identity_s_matrix (stored_layer bs l0) t0) (identity_s_matrix l0 t0).
- by move=> l /eqP <-; apply: stored_layer_modes.
- by split=> //=; rewrite -e0; apply: stored_layer_modes.
Qed.

(** *** Rewriting the thickness of the end layer *)

Lemma stack_s_matrix_ok (ls : seq LayerSolveResult) (ts : seq thickness)
    (force_x64_solve : bool) (s : ScatteringMatrix) :
  stack_s_matrix ls ts force_x64_solve = ret s ->
  size ls = size ts /\
  exists bs, broadcast_shapes [seq batch_shape l | l <- ls] = ret bs.
Proof.
rewrite /stack_s_matrix /_stack_s_matrices; case: eqP => //= sz.
rewrite batch_shape_replace.
by case: (broadcast_shapes _) => //= bs _; split=> //; exists bs.
Qed.

Lemma phase_shift (q : 'rV[C]_n) (t t2 : R) (c : 'I_n) :
  phase q t 0 c * phase q (t2 - t)%Re 0 c = phase q t2 0 c.
Proof.
rewrite !mxE -CexpD; congr Cexp.
rewrite -mulrDr; congr (_ * _).
by apply: C_eq; rewrite /= ; ring.
Qed.

Lemma scale_cols_phase (m : 'M[C]_n) (q : 'rV[C]_n) (t t2 : R) :
  scale_cols (scale_cols m (phase q t)) (phase q (t2 - t)%Re) =
  scale_cols m (phase q t2).
Proof.
apply/matrixP => i j; rewrite !mxE -mulrA.
by have := phase_shift q t t2 j; rewrite !mxE => ->.
Qed.

Lemma scale_colsD (a b : 'M[C]_n) (v : 'rV[C]_n) :
  scale_cols (a + b) v = scale_cols a v + scale_cols b v.
Proof. by rewrite !scale_colsE mulmxDl. Qed.

Lemma scale_cols_mul (a b : 'M[C]_n) (v : 'rV[C]_n) :
  scale_cols (a *m b) v = a *m scale_cols b v.
Proof. by rewrite !scale_colsE mulmxA. Qed.

Section EndThickness.

(** A linear solve commutes with a scaling of the columns of its right-hand
    side: column [c] of the solution of [a @ x = b] depends on column [c] of
    [b] only, and linearly. *)
Hypothesis solve_scale_cols :
  forall (a b : 'M[C]_n) (v : 'rV[C]_n) (f : bool),
    solve a (scale_cols b v) f = scale_cols (solve a b f) v.

Lemma set_end_append_layer (s : ScatteringMatrix) (l : LayerSolveResult)
    (t t2 : thickness) (force_x64_solve : bool) :
  set_end_layer_thickness (append_layer s l t force_x64_solve) t2 =
  append_layer s l t2 force_x64_solve.
Proof.
rewrite /set_end_layer_thickness /append_layer /_extend_s_matrix /=.
congr MkScatteringMatrix.
- by rewrite !solve_scale_cols scale_cols_phase.
- rewrite scale_colsD scale_cols_mul !solve_scale_cols !scale_cols_phase.
  by [].
Qed.

(** C4, amended. For every stack of at least two layers,
    [set_end_layer_thickness] applied to the result of [stack_s_matrix],
    which rescales [s12] and [s22] by [exp(1j * q * (t2 - t))] and keeps
    [s11] and [s21], is the scattering matrix that [stack_s_matrix] returns
    when the stack is rebuilt with the thickness of the end layer set to
    [t2]. *)
Theorem set_end_layer_thickness_rebuild
    (ls : seq LayerSolveResult) (ts : seq thickness) (t t2 : thickness)
    (force_x64_solve : bool) (s : ScatteringMatrix) :
  (1 < size ls)%N ->
  stack_s_matrix ls (rcons ts t) force_x64_solve = ret s ->
  stack_s_matrix ls (rcons ts t2) force_x64_solve =
  ret (set_end_layer_thickness s t2).
Proof.
move=> big Hs; have [sz [bs Hbs]] := stack_s_matrix_ok Hs.
have sz2 : size ls = size (rcons ts t2) by rewrite sz !size_rcons.
move: Hs; rewrite (stack_s_matrixE _ sz Hbs) (stack_s_matrixE _ sz2 Hbs).
case: ls ts big sz {sz2 Hbs} => [|l0 ls] [|t0 ts] //=.
  by case: ls.
case/lastP: ls => [|ls l] // _ [].
rewrite !size_rcons => -[sz] [<-].
by rewrite map_rcons !zip_rcons ?size_map // !foldl_rcons set_end_append_layer.
Qed.

End EndThickness.

(** *** Input validation *)

Lemma broadcast_msg_not_length (ss : seq shape) (a b : nat) :
  ValueError (broadcast_msg ss) <> ValueError (length_mismatch_msg a b).
Proof. by []. Qed.



(** *** The stored solve results carry no tangent vector field *)

Lemma All_cat (T : Type) (P : T -> Prop) (s1 s2 : seq T) :
  All P (s1 ++ s2) <-> All P s1 /\ All P s2.
Proof. by elim: s1 => [|x s1 IH] /=; tauto. Qed.

Lemma All_rev (T : Type) (P : T -> Prop) (s : seq T) : All P s -> All P (rev s).
Proof.
elim: s => //= x s IH [Px Ps]; rewrite rev_cons -cats1.
by apply/All_cat; split; [apply: IH | split].
Qed.

Lemma All_map (T U : Type) (P : U -> Prop) (f : T -> U) (s : seq T) :
  All (fun x => P (f x)) s -> All P [seq f x | x <- s].
Proof. by elim: s => //= x s IH [Px Ps]; split=> //; apply: IH. Qed.

Lemma All_zip (T U : Type) (P : T -> Prop) (Q : U -> Prop)
    (s : seq T) (r : seq U) :
  All P s -> All Q r -> All (fun p => P p.1 /\ Q p.2) (zip s r).
Proof.
elim: s r => [|x s IH] [|y r] //= [Px Ps] [Qy Qr].
by split=> //; apply: IH.
Qed.

Lemma All_impl (T : Type) (P Q : T -> Prop) (s : seq T) :
  (forall x, P x -> Q x) -> All P s -> All Q s.
Proof. by move=> PQ; elim: s => //= x s IH [Px Ps]; split; auto. Qed.

(** Both solve results stored in a scattering matrix have their
    [tangent_vector_field] equal to [None]. *)
Definition stripped (s : ScatteringMatrix) : Prop :=
  tangent_vector_field (start_layer_solve_result s) = None /\
  tangent_vector_field (end_layer_solve_result s) = None.

Lemma stripped_block_swap (s : ScatteringMatrix) :
  stripped s -> stripped (block_swap s).
Proof. by case. Qed.

Lemma stripped_append_layer (s : ScatteringMatrix) (l : LayerSolveResult)
    (t : thickness) (force_x64_solve : bool) :
  stripped s -> tangent_vector_field l = None ->
  stripped (append_layer s l t force_x64_solve).
Proof.
rewrite /append_layer => -[ss se] tl.
by case: (_extend_s_matrix _ _ _ _ _ _) => [[[a b] c] d].
Qed.

Section TangentField.

(** Broadcasting a solve result that has no tangent vector field yields
    one that has none. *)
Hypothesis broadcast_result_None :
  forall (l : LayerSolveResult) (s : shape),
    tangent_vector_field l = None ->
    tangent_vector_field (broadcast_result l s) = None.

Lemma stored_layer_None (bs : shape) (l : LayerSolveResult) :
  tangent_vector_field (stored_layer bs l) = None.
Proof. exact: broadcast_result_None. Qed.

Lemma All_stripped_scanl (bs : shape) (force_x64_solve : bool)
    (ls : seq LayerSolveResult) (ts : seq thickness) (s : ScatteringMatrix) :
  stripped s ->
  All stripped
    (scanl (append_step force_x64_solve) s
       (zip [seq stored_layer bs l | l <- ls] ts)).
Proof.
elim: ls ts s => [|l ls IH] [|t ts] s //= st.
have st' : stripped (append_step force_x64_solve s (stored_layer bs l, t)).
  by apply: stripped_append_layer => //; apply: stored_layer_None.
by split=> //; apply: IH.
Qed.

Lemma All_stripped_prefix (bs : shape) (force_x64_solve : bool)
    (ls : seq LayerSolveResult) (ts : seq thickness) :
  All stripped
    (prefix_s_matrices force_x64_solve
       (zip [seq stored_layer bs l | l <- ls] ts)).
Proof.
case: ls ts => [|l0 ls] [|t0 ts] //=.
split; first by split; apply: stored_layer_None.
case: ls ts => [|l1 ls] [|t1 ts] //=.
have st : stripped (_pair_s_matrix (stored_layer bs l0) t0
                      (stored_layer bs l1) t1 force_x64_solve).
  by split; apply: stored_layer_None.
by split=> //; apply: All_stripped_scanl.
Qed.

Lemma All_stripped_stack (ls : seq LayerSolveResult) (ts : seq thickness)
    (force_x64_solve : bool) (ms : seq ScatteringMatrix) :
  _stack_s_matrices ls ts force_x64_solve = ret ms -> All stripped ms.
Proof.
move=> Hms.
have sz : size ls = size ts.
  by move: Hms; rewrite /_stack_s_matrices; case: eqP.
have [bs Hbs] :
    exists bs, broadcast_shapes [seq batch_shape l | l <- ls] = ret bs.
  move: Hms; rewrite /_stack_s_matrices sz eqxx /= batch_shape_replace.
  by case: (broadcast_shapes _) => //= bs _; exists bs.
move: Hms; rewrite (stack_s_matricesE _ sz Hbs).
case: ls {sz Hbs} => // l ls [<-].
exact: (All_stripped_prefix bs force_x64_solve (l :: ls) ts).
Qed.

Lemma All_last (T : Type) (P : T -> Prop) (x : T) (s : seq T) :
  P x -> All P s -> P (last x s).
Proof. by elim: s x => //= y s IH x _ [Py Ps]; apply: IH. Qed.

Lemma stripped_differs (s : ScatteringMatrix) (l : LayerSolveResult) :
  stripped s -> tangent_vector_field l <> None ->
  start_layer_solve_result s <> l /\ end_layer_solve_result s <> l.
Proof. by move=> [ss se] nl; split=> e; apply: nl; rewrite -e. Qed.

(** C10. Every scattering matrix returned by [stack_s_matrix] and by
    [stack_s_matrices_interior] stores a start-layer and an end-layer solve
    result whose [tangent_vector_field] is [None]; a solve result of the
    caller that carries a tangent vector field is therefore none of the
    stored ones.  [fmm.broadcast_result] is assumed to give a result
    without tangent vector field when its argument has none. *)
Theorem stored_solve_results_without_tangent_field
    (ls : seq LayerSolveResult) (ts : seq thickness)
    (force_x64_solve : bool) :
  [/\ forall s, stack_s_matrix ls ts force_x64_solve = ret s -> stripped s,
      forall res,
        stack_s_matrices_interior ls ts force_x64_solve = ret res ->
        All (fun p => stripped p.1 /\ stripped p.2) res
    & forall s l,
        stack_s_matrix ls ts force_x64_solve = ret s ->
        tangent_vector_field l <> None ->
        start_layer_solve_result s <> l /\ end_layer_solve_result s <> l].
Proof.
have H1 s : stack_s_matrix ls ts force_x64_solve = ret s -> stripped s.
  rewrite /stack_s_matrix.
  case E : (_stack_s_matrices _ _ _) => [e|ms] //=.
  have := All_stripped_stack E.
  by case: ms {E} => //= m ms [sm sms] [<-]; apply: All_last.
split=> //.
- move=> res; rewrite /stack_s_matrices_interior.
  case E : (_stack_s_matrices ls ts _) => [e|before] //=.
  case E' : (_stack_s_matrices (rev ls) _ _) => [e|reverse] //= [<-].
  apply: All_zip; first exact: All_stripped_stack E.
  apply: All_map; apply: All_rev.
  apply: All_impl (All_stripped_stack E').
  exact: stripped_block_swap.
- by move=> s l /H1 st; apply: stripped_differs.
Qed.

End TangentField.

(** *** Rewriting a layer thickness more than once *)

Lemma phase_chain (q : 'rV[C]_n) (t t1 t2 : R) (c : 'I_n) :
  phase q (t1 - t)%Re 0 c * phase q (t2 - t1)%Re 0 c = phase q (t2 - t)%Re 0 c.
Proof.
rewrite !mxE -CexpD; congr Cexp.
rewrite -mulrDr; congr (_ * _).
by apply: C_eq; rewrite /=; ring.
Qed.

Lemma phase_same (q : 'rV[C]_n) (t : R) (c : 'I_n) :
  phase q (t - t)%Re 0 c = 1.
Proof.
rewrite !mxE (_ : RtoC (t - t) = 0) ?mulr0 ?Cexp0 //.
by apply: C_eq; rewrite /=; ring.
Qed.

Lemma scale_cols_chain (m : 'M[C]_n) (q : 'rV[C]_n) (t t1 t2 : R) :
  scale_cols (scale_cols m (phase q (t1 - t)%Re)) (phase q (t2 - t1)%Re) =
  scale_cols m (phase q (t2 - t)%Re).
Proof.
apply/matrixP => i j; rewrite !mxE -mulrA.
by have := phase_chain q t t1 t2 j; rewrite !mxE => ->.
Qed.

Lemma scale_cols_same (m : 'M[C]_n) (q : 'rV[C]_n) (t : R) :
  scale_cols m (phase q (t - t)%Re) = m.
Proof.
apply/matrixP => i j; rewrite !mxE.
by have := phase_same q t j; rewrite !mxE => ->; rewrite mulr1.
Qed.

(** X1. Setting the thickness of the end layer twice is setting it to the
    second value; setting it to the value it has changes nothing; and so
    setting it back to the value it had restores the scattering matrix. *)
Theorem set_end_layer_thickness_twice (s : ScatteringMatrix)
    (t1 t2 : thickness) :
  [/\ set_end_layer_thickness (set_end_layer_thickness s t1) t2 =
      set_end_layer_thickness s t2,
      set_end_layer_thickness s (end_layer_thickness s) = s
    & set_end_layer_thickness (set_end_layer_thickness s t1)
        (end_layer_thickness s) = s].
Proof.
have twice u v : set_end_layer_thickness (set_end_layer_thickness s u) v =
                 set_end_layer_thickness s v.
  by rewrite /set_end_layer_thickness /= !scale_cols_chain.
have same (s' : ScatteringMatrix) :
    set_end_layer_thickness s' (end_layer_thickness s') = s'.
  by rewrite /set_end_layer_thickness !scale_cols_same; case: s'.
by split; rewrite ?twice.
Qed.

(** X2. Setting the thickness of the start layer twice is setting it to
    the second value, setting it to the value it has changes nothing, and
    setting it back restores the scattering matrix; rewriting the start
    thickness and rewriting the end thickness commute. *)
Theorem set_start_layer_thickness_twice (s : ScatteringMatrix)
    (t1 t2 : thickness) :
  [/\ set_start_layer_thickness (set_start_layer_thickness s t1) t2 =
      set_start_layer_thickness s t2,
      set_start_layer_thickness s (start_layer_thickness s) = s,
      set_start_layer_thickness (set_start_layer_thickness s t1)
        (start_layer_thickness s) = s
    & set_start_layer_thickness (set_end_layer_thickness s t1) t2 =
      set_end_layer_thickness (set_start_layer_thickness s t2) t1].
Proof.
have twice u v : set_start_layer_thickness (set_start_layer_thickness s u) v =
                 set_start_layer_thickness s v.
  by rewrite /set_start_layer_thickness /= !scale_cols_chain.
have same (s' : ScatteringMatrix) :
    set_start_layer_thickness s' (start_layer_thickness s') = s'.
  by rewrite /set_start_layer_thickness !scale_cols_same; case: s'.
by split; rewrite ?twice.
Qed.

(** *** Rewriting the thickness of the start layer *)

Lemma scale_rows_cols (q v : 'rV[C]_n) (m : 'M[C]_n) :
  scale_cols (scale_rows q m) v = scale_rows q (scale_cols m v).
Proof. by apply/matrixP => i j; rewrite !mxE mulrA. Qed.

Lemma scale_cols0 (v : 'rV[C]_n) : scale_cols 0 v = 0.
Proof. by rewrite scale_colsE mul0mx. Qed.

Lemma scale_rows_diag_phase (q : 'rV[C]_n) (t t2 : R) :
  scale_rows (phase q t) (scale_cols 1%:M (phase q (t2 - t)%Re)) =
  scale_rows (phase q t2) 1%:M.
Proof.
apply/matrixP => i j; rewrite !mxE.
case: (altP (i =P j)) => [->|_]; last by rewrite !mulr0n mul0r !mulr0.
by rewrite !mulr1n mul1r mulr1; have := phase_shift q t t2 j; rewrite !mxE.
Qed.

Section StartThickness.

Hypothesis solve_scale_cols :
  forall (a b : 'M[C]_n) (v : 'rV[C]_n) (f : bool),
    solve a (scale_cols b v) f = scale_cols (solve a b f) v.

Lemma set_start_append_layer (s : ScatteringMatrix) (l : LayerSolveResult)
    (t t2 : thickness) (force_x64_solve : bool) :
  set_start_layer_thickness (append_layer s l t force_x64_solve) t2 =
  append_layer (set_start_layer_thickness s t2) l t force_x64_solve.
Proof.
rewrite /set_start_layer_thickness /append_layer /_extend_s_matrix /=.
congr MkScatteringMatrix.
- by rewrite -solve_scale_cols scale_rows_cols.
- by rewrite scale_colsD scale_cols_mul -solve_scale_cols scale_rows_cols.
Qed.

Lemma set_start_foldl (force_x64_solve : bool)
    (rest : seq (LayerSolveResult * thickness)) (s : ScatteringMatrix)
    (t2 : thickness) :
  set_start_layer_thickness (foldl (append_step force_x64_solve) s rest) t2 =
  foldl (append_step force_x64_solve) (set_start_layer_thickness s t2) rest.
Proof.
elim: rest s => //= x rest IH s.
by rewrite IH /append_step set_start_append_layer.
Qed.

Lemma set_start_identity_append (l0 l1 : LayerSolveResult)
    (t t1 t2 : thickness) (force_x64_solve : bool) :
  append_layer (set_start_layer_thickness (identity_s_matrix l0 t) t2)
    l1 t1 force_x64_solve =
  append_layer (identity_s_matrix l0 t2) l1 t1 force_x64_solve.
Proof.
rewrite /set_start_layer_thickness /append_layer /_extend_s_matrix /=.
by rewrite scale_cols0 !scale_rows0 scale_rows_diag_phase.
Qed.

(** X3. For every stack of at least two layers,
    [set_start_layer_thickness] applied to the result of [stack_s_matrix]
    is the scattering matrix that [stack_s_matrix] returns when the stack
    is rebuilt with the thickness of the first layer set to the new
    value. *)
Theorem set_start_layer_thickness_rebuild
    (ls : seq LayerSolveResult) (ts : seq thickness) (t t2 : thickness)
    (force_x64_solve : bool) (s : ScatteringMatrix) :
  (1 < size ls)%N ->
  stack_s_matrix ls (t :: ts) force_x64_solve = ret s ->
  stack_s_matrix ls (t2 :: ts) force_x64_solve =
  ret (set_start_layer_thickness s t2).
Proof.
move=> big Hs; have [sz [bs Hbs]] := stack_s_matrix_ok Hs.
have sz2 : size ls = size (t2 :: ts) by rewrite sz.
move: Hs; rewrite (stack_s_matrixE _ sz Hbs) (stack_s_matrixE _ sz2 Hbs).
case: ls big sz {sz2 Hbs} => [|l0 [|l1 ls]] //= _.
case: ts => [|t1 ts] //= _ [<-].
by rewrite set_start_foldl /append_step /= set_start_append_layer
           set_start_identity_append.
Qed.

End StartThickness.

(** *** The star product with a single-layer scattering matrix *)

Section StarProduct.

(** The solution of [1 @ x = b] is [b]. *)
Hypothesis solve_identity :
  forall (b : 'M[C]_n) (f : bool), solve 1%:M b f = b.

(** X4. When [b] is the scattering matrix of a single layer,
    [redheffer_star_product a b] is [a] extended by that layer; the
    extension is computed by [append_layer] with its default
    [force_x64_solve = False], whatever flag the star product was given. *)
Theorem redheffer_star_product_single_layer
    (a b : ScatteringMatrix) (l : LayerSolveResult) (t : thickness)
    (force_x64_solve force_x64_solve' : bool) :
  stack_s_matrix [:: l] [:: t] force_x64_solve' = ret b ->
  redheffer_star_product a b force_x64_solve =
  append_layer a (end_layer_solve_result b) (end_layer_thickness b) false.
Proof.
rewrite (@stack_s_matrixE [:: l] [:: t] (batch_shape l)) //;
  first exact: broadcast_shapes_one.
move=> [<-]; rewrite /redheffer_star_product /= diag_ones_like.
rewrite !mulmx0 !mul0mx !subr0 !solve_identity !mul1mx !mulmx1 mulmx0.
by rewrite ?add0r ?addr0.
Qed.

End StarProduct.

(** *** The matrices of the sub-stacks *)

Lemma getitem_nth (T : Type) (d : T) (s : seq T) (i : nat) :
  (i < size s)%N -> getitem s i = ret (nth d s i).
Proof. by move=> lt; rewrite /getitem (drop_nth d lt). Qed.

Lemma take_zip (S T : Type) (k : nat) (s : seq S) (t : seq T) :
  take k (zip s t) = zip (take k s) (take k t).
Proof. by elim: k s t => [|k IH] [|x s] [|y t] //=; rewrite IH. Qed.

Lemma all_take (T : Type) (P : pred T) (k : nat) (s : seq T) :
  all P s -> all P (take k s).
Proof. by rewrite -{1}(cat_take_drop k s) all_cat => /andP[]. Qed.

Lemma size_prefix_s_matrices (force_x64_solve : bool)
    (layers : seq (LayerSolveResult * thickness)) :
  size (prefix_s_matrices force_x64_solve layers) = size layers.
Proof.
by case: layers => [|[l0 t0] [|[l1 t1] rest]] //=; rewrite size_scanl.
Qed.

Lemma nth_prefix_s_matrices (d : ScatteringMatrix) (force_x64_solve : bool)
    (l0 : LayerSolveResult) (t0 : thickness)
    (rest : seq (LayerSolveResult * thickness)) (k : nat) :
  (k <= size rest)%N ->
  nth d (prefix_s_matrices force_x64_solve ((l0, t0) :: rest)) k =
  foldl (append_step force_x64_solve) (identity_s_matrix l0 t0) (take k rest).
Proof.
case: k rest => [|k] [|[l1 t1] rest] //= le.
have -> : append_step force_x64_solve (identity_s_matrix l0 t0) (l1, t1) =
          _pair_s_matrix l0 t0 l1 t1 force_x64_solve.
  exact: append_layer_identity.
exact: nth_cons_scanl.
Qed.

(** With layers of one batch shape, the matrix at index [k] of
    [_stack_s_matrices] is the result of [stack_s_matrix] on the first
    [k + 1] layers. *)
Lemma stack_s_matrices_getitem (bs : shape) (ls : seq LayerSolveResult)
    (ts : seq thickness) (force_x64_solve : bool) (k : nat) :
  size ls = size ts -> all (fun l => batch_shape l == bs) ls ->
  (k < size ls)%N ->
  exists (ms : seq ScatteringMatrix) (m : ScatteringMatrix),
    [/\ _stack_s_matrices ls ts force_x64_solve = ret ms,
        size ms = size ls,
        forall d, nth d ms k = m
      & stack_s_matrix (take k.+1 ls) (take k.+1 ts) force_x64_solve = ret m].
Proof.
move=> sz Hall lt.
have Hbs (s : seq LayerSolveResult) :
    (0 < size s)%N -> all (fun l => batch_shape l == bs) s ->
    broadcast_shapes [seq batch_shape l | l <- s] = ret bs.
  move=> ne Hs; apply: broadcast_shapes_same; last by case: s ne {Hs}.
  by rewrite all_map; apply: sub_all Hs => l /=; rewrite eq_sym.
have ne : (0 < size ls)%N by case: ls lt {sz Hall}.
have szt : size (take k.+1 ls) = size (take k.+1 ts) by rewrite !size_take sz.
have net : (0 < size (take k.+1 ls))%N by case: ls ne {sz Hall lt szt}.
rewrite (stack_s_matricesE _ sz (Hbs _ ne Hall)).
rewrite (stack_s_matrixE _ szt (Hbs _ net (all_take _ Hall))).
case: ls ts sz lt {Hall ne szt net} => [|l0 ls] [|t0 ts] //= [sz] lt.
pose rest := zip [seq stored_layer bs l | l <- ls] ts.
have szr : size rest = size ls by rewrite size_zip size_map sz minnn.
exists (prefix_s_matrices force_x64_solve ((stored_layer bs l0, t0) :: rest)).
exists (foldl (append_step force_x64_solve)
          (identity_s_matrix (stored_layer bs l0) t0) (take k rest)).
split=> //.
- by rewrite size_prefix_s_matrices /= szr.
- by move=> d; apply: nth_prefix_s_matrices; rewrite szr.
- by rewrite /rest take_zip map_take.
Qed.

(** X5. For layers of one batch shape with one thickness each,
    [stack_s_matrices_interior] returns one pair of scattering matrices per
    layer.  The first matrix of the pair of layer [i] is the result of
    [stack_s_matrix] on the layers [0, ..., i]; the second is the result of
    [stack_s_matrix] on the layers [N, ..., i], the rest of the stack in
    reverse order, with its two ends exchanged. *)
Theorem stack_s_matrices_interior_substacks
    (bs : shape) (ls : seq LayerSolveResult) (ts : seq thickness)
    (force_x64_solve : bool) (i : nat) :
  size ls = size ts -> all (fun l => batch_shape l == bs) ls ->
  (i < size ls)%N ->
  exists (res : seq (ScatteringMatrix * ScatteringMatrix))
         (before after : ScatteringMatrix),
    [/\ stack_s_matrices_interior ls ts force_x64_solve = ret res,
        size res = size ls,
        getitem res i = ret (before, block_swap after),
        stack_s_matrix (take i.+1 ls) (take i.+1 ts) force_x64_solve =
        ret before
      & stack_s_matrix (rev (drop i ls)) (rev (drop i ts)) force_x64_solve =
        ret after].
Proof.
move=> sz Hall lt.
have [ms [m [Hms szms Hm Hstack]]] :=
  stack_s_matrices_getitem force_x64_solve sz Hall lt.
have szr : size (rev ls) = size (rev ts) by rewrite !size_rev.
have Hallr : all (fun l => batch_shape l == bs) (rev ls) by rewrite all_rev.
have ltr : (size ls - i.+1 < size (rev ls))%N.
  by rewrite size_rev; exact: (rev_ord_proof (Ordinal lt)).
have [ms' [m' [Hms' szms' Hm' Hstack']]] :=
  stack_s_matrices_getitem force_x64_solve szr Hallr ltr.
have sza : size [seq block_swap s | s <- rev ms'] = size ls.
  by rewrite size_map size_rev szms' size_rev.
exists (zip ms [seq block_swap s | s <- rev ms']), m, m'; split.
- by rewrite /stack_s_matrices_interior Hms Hms'.
- by rewrite size_zip sza szms minnn.
- rewrite (getitem_nth (m, block_swap m'));
    first by rewrite size_zip sza szms minnn.
  rewrite nth_zip ?sza // Hm (nth_map m') ?size_rev ?szms' ?size_rev //.
  by rewrite nth_rev ?szms' ?size_rev // Hm'.
- exact: Hstack.
- move: Hstack'; rewrite !take_rev subnSK // -sz subKn //.
  exact: ltnW.
Qed.

(** *** The outcomes of the reductions *)

Lemma append_layer_ends (s : ScatteringMatrix) (l : LayerSolveResult)
    (t : thickness) (force_x64_solve : bool) :
  let s' := append_layer s l t force_x64_solve in
  [/\ start_layer_solve_result s' = start_layer_solve_result s,
      start_layer_thickness s' = start_layer_thickness s,
      end_layer_solve_result s' = l
    & end_layer_thickness s' = t].
Proof.
rewrite /append_layer.
by case: (_extend_s_matrix _ _ _ _ _ _) => [[[a b] c] d].
Qed.

Lemma foldl_append_ends (force_x64_solve : bool)
    (rest : seq (LayerSolveResult * thickness)) (s : ScatteringMatrix) :
  let s' := foldl (append_step force_x64_solve) s rest in
  [/\ start_layer_solve_result s' = start_layer_solve_result s,
      start_layer_thickness s' = start_layer_thickness s,
      end_layer_solve_result s' = last (end_layer_solve_result s) (unzip1 rest)
    & end_layer_thickness s' = last (end_layer_thickness s) (unzip2 rest)].
Proof.
elim: rest s => [|[l t] rest IH] s //=.
have [e1 e2 e3 e4] := append_layer_ends s l t force_x64_solve.
have [-> -> -> ->] := IH (append_step force_x64_solve s (l, t)).
by rewrite /append_step [(l, t).1]/= [(l, t).2]/= e1 e2 e3 e4.
Qed.

Lemma broadcast_shapes_error (ss : seq shape) (e : exn) :
  broadcast_shapes ss = raise e -> e = ValueError (broadcast_msg ss).
Proof. by rewrite /broadcast_shapes; case: (foldl _ _ _) => // -[]. Qed.

(** X6. For layers of one expansion size and scalar thicknesses, with
    [fmm.broadcast_result] and [utils.solve] returning a value,
    [stack_s_matrix] fails in exactly three ways: with the [ValueError] of
    the length check when the numbers of layers and thicknesses differ;
    with the [ValueError] that [jnp.broadcast_shapes] raises, passed on
    unchanged, when the numbers agree and the batch shapes of the layers
    cannot be broadcast together; with an [IndexError] on the empty stack.
    In every other case it returns a scattering matrix whose start layer is
    the first layer and whose end layer is the last one, as stored (without
    tangent field, broadcast to the common batch shape), with their
    thicknesses. *)
Theorem stack_s_matrix_outcome
    (ls : seq LayerSolveResult) (ts : seq thickness)
    (force_x64_solve : bool) :
  let r := stack_s_matrix ls ts force_x64_solve in
  let shapes := broadcast_shapes [seq batch_shape l | l <- ls] in
  [\/ size ls <> size ts /\
      r = raise (ValueError (length_mismatch_msg (size ls) (size ts))),
      size ls = size ts /\
      exists msg : string,
        shapes = raise (ValueError msg) /\ r = raise (ValueError msg),
      [/\ ls = [::], ts = [::] & r = raise IndexError]
    | exists bs s l0 ls' t0 ts',
        [/\ ls = l0 :: ls' /\ ts = t0 :: ts',
            size ls' = size ts' /\ shapes = ret bs,
            r = ret s,
            start_layer_solve_result s = stored_layer bs l0 /\
            start_layer_thickness s = t0
          & end_layer_solve_result s = stored_layer bs (last l0 ls') /\
            end_layer_thickness s = last t0 ts']].
Proof.
move=> r shapes; rewrite /r /shapes {r shapes}.
case: (size ls =P size ts) => [sz|ne]; last first.
  constructor 1; split=> //.
  by rewrite /stack_s_matrix /_stack_s_matrices; case: eqP.
case Hbs : (broadcast_shapes [seq batch_shape l | l <- ls]) => [e|bs].
  constructor 2; split=> //.
  exists (broadcast_msg [seq batch_shape l | l <- ls]).
  have -> := broadcast_shapes_error Hbs; split=> //.
  rewrite /stack_s_matrix /_stack_s_matrices sz eqxx /= batch_shape_replace.
  by rewrite Hbs (broadcast_shapes_error Hbs).
rewrite (stack_s_matrixE _ sz Hbs).
case: ls ts sz {Hbs} => [|l0 ls] [|t0 ts] //= sz; first by constructor 3.
case: sz => sz; constructor 4; exists bs.
pose rest := zip [seq stored_layer bs l | l <- ls] ts.
have [e1 e2 e3 e4] :=
  foldl_append_ends force_x64_solve rest
    (identity_s_matrix (stored_layer bs l0) t0).
eexists; exists l0, ls, t0, ts; split; [by []|by []|by []|by split|].
rewrite e3 e4 /rest unzip1_zip ?unzip2_zip ?size_map ?sz //=.
by rewrite last_map.
Qed.

(** X7. [stack_s_matrix_scan] on a non-empty stack raises [AssertionError] when
    the array of thicknesses is not one-dimensional, whatever its length;
    otherwise the [ValueError] of the compatibility check when the numbers
    of layers and thicknesses differ; otherwise it returns a scattering
    matrix whose start and end layers are the first and the last layer as
    given: unlike [stack_s_matrix], it stores the solve results with
    their tangent vector fields. *)
Theorem stack_s_matrix_scan_outcome
    (l0 : LayerSolveResult) (ls' : seq LayerSolveResult)
    (ta : thickness_array) (force_x64_solve : bool) :
  let ls := l0 :: ls' in
  let r := stack_s_matrix_scan ls ta force_x64_solve in
  [\/ ndim ta <> 1%N /\ r = raise AssertionError,
      [/\ ndim ta = 1%N, size ls <> len ta
        & r = raise (ValueError
                       (layer_number_mismatch_msg (size ls) (len ta)))]
    | exists s t0 ts',
        [/\ ndim ta = 1%N /\ entries ta = t0 :: ts',
            size ls' = size ts',
            r = ret s,
            start_layer_solve_result s = l0 /\ start_layer_thickness s = t0
          & end_layer_solve_result s = last l0 ls' /\
            end_layer_thickness s = last t0 ts']].
Proof.
move=> ls r; rewrite /r /ls {r ls}.
case: ta => k es; case: (k =P 1%N) => [->|ne] /=; last first.
  by constructor 1; split=> //; rewrite /stack_s_matrix_scan /=; case: eqP.
case: (size (l0 :: ls') =P size es) => [sz|ne]; last first.
  constructor 2; split=> //.
  by rewrite /stack_s_matrix_scan /= /len /=; case: eqP.
rewrite (stack_s_matrix_scanE _ sz).
case: es sz => [|t0 ts] //= [sz].
have [e1 e2 e3 e4] :=
  foldl_append_ends force_x64_solve (zip ls' ts) (identity_s_matrix l0 t0).
constructor 3; eexists; exists t0, ts; split; [by []|by []|by []|by split|].
by rewrite e3 e4 unzip1_zip ?unzip2_zip ?sz.
Qed.

(** *** Building a stack layer by layer *)

(** X8. For layers of one batch shape, the scattering matrix of a stack with
    one more layer at its end is [append_layer] applied to the scattering
    matrix of the stack and the new layer as stored. *)
Theorem stack_s_matrix_rcons
    (bs : shape) (ls : seq LayerSolveResult) (ts : seq thickness)
    (l : LayerSolveResult) (t : thickness) (force_x64_solve : bool) :
  (0 < size ls)%N -> size ls = size ts ->
  all (fun l' => batch_shape l' == bs) (rcons ls l) ->
  exists s : ScatteringMatrix,
    stack_s_matrix ls ts force_x64_solve = ret s /\
    stack_s_matrix (rcons ls l) (rcons ts t) force_x64_solve =
    ret (append_layer s (stored_layer bs l) t force_x64_solve).
Proof.
move=> pos sz; rewrite all_rcons => /andP[el Hall].
have Hbs (s : seq LayerSolveResult) :
    (0 < size s)%N -> all (fun l => batch_shape l == bs) s ->
    broadcast_shapes [seq batch_shape l | l <- s] = ret bs.
  move=> ne Hs; apply: broadcast_shapes_same; last by case: s ne {Hs}.
  by rewrite all_map; apply: sub_all Hs => l' /=; rewrite eq_sym.
have sz' : size (rcons ls l) = size (rcons ts t) by rewrite !size_rcons sz.
have pos' : (0 < size (rcons ls l))%N by rewrite size_rcons.
have Hall' : all (fun l' => batch_shape l' == bs) (rcons ls l).
  by rewrite all_rcons el.
rewrite (stack_s_matrixE _ sz (Hbs _ pos Hall)).
rewrite (stack_s_matrixE _ sz' (Hbs _ pos' Hall')).
case: ls ts pos sz {Hall Hall' sz' pos'} => [|l0 ls] [|t0 ts] //= _ [sz].
eexists; split; first by [].
by rewrite map_rcons zip_rcons ?size_map // foldl_rcons.
Qed.

Section LastLayerThickness.

Hypothesis solve_scale_cols :
  forall (a b : 'M[C]_n) (v : 'rV[C]_n) (f : bool),
    solve a (scale_cols b v) f = scale_cols (solve a b f) v.

Lemma set_start_block_swap (s : ScatteringMatrix) (t : thickness) :
  set_start_layer_thickness (block_swap s) t =
  block_swap (set_end_layer_thickness s t).
Proof. by []. Qed.

(** X9. Changing the thickness of the layer that was just appended, or
    prepended, gives the scattering matrix obtained by appending, or
    prepending, the layer with the new thickness. *)
Theorem set_thickness_of_added_layer
    (s : ScatteringMatrix) (l : LayerSolveResult) (t t2 : thickness)
    (force_x64_solve : bool) :
  set_end_layer_thickness (append_layer s l t force_x64_solve) t2 =
  append_layer s l t2 force_x64_solve /\
  set_start_layer_thickness (prepend_layer s l t force_x64_solve) t2 =
  prepend_layer s l t2 force_x64_solve.
Proof.
have pre u : prepend_layer s l u force_x64_solve =
             block_swap (append_layer (block_swap s) l u force_x64_solve).
  by case: s.
split; first exact: set_end_append_layer.
by rewrite !pre set_start_block_swap set_end_append_layer.
Qed.

End LastLayerThickness.

End Scattering.

(** ** The differentiable eigensolver ([_eig.py])

    A batched array is a family of values indexed by the batch indices [B].
    The matrices have [N = n.+1] rows and columns: the maximum over an empty
    array is an error in [jnp.amax]. *)

Definition _EIG_EPS_RELATIVE : R := 1e-12.
Definition _EIG_EPS_MINIMUM : R := 1e-24.

Section Eig.

Variable B : Type.
Variable n : nat.

Definition batched (T : Type) : Type := B -> T.

(** [jeig.eig] and [jnp.linalg.eig] on one matrix, and
    [jnp.linalg.solve] on one pair of matrices: on batched arguments these
    library routines act on every matrix of the batch separately. *)
Variable jeig_eig : 'M[C]_n.+1 -> 'rV[C]_n.+1 * 'M[C]_n.+1.
Variable linalg_eig : 'M[C]_n.+1 -> 'rV[C]_n.+1 * 'M[C]_n.+1.
Variable linalg_solve : 'M[C]_n.+1 -> 'M[C]_n.+1 -> 'M[C]_n.+1.

(** Whether the [jeig] package could be imported, and whether the default
    device is the CPU. *)
Variable _JEIG_AVAILABLE : bool.
Variable default_device_is_cpu : bool.

Definition jnp_linalg_eig (matrix : batched 'M[C]_n.+1)
  : batched 'rV[C]_n.+1 * batched 'M[C]_n.+1 :=
  (fun b => (linalg_eig (matrix b)).1, fun b => (linalg_eig (matrix b)).2).

Definition jeig_eig_batched (matrix : batched 'M[C]_n.+1)
  : batched 'rV[C]_n.+1 * batched 'M[C]_n.+1 :=
  (fun b => (jeig_eig (matrix b)).1, fun b => (jeig_eig (matrix b)).2).

(** [jax.jit(jnp.linalg.eig)] placed on the CPU device. *)
Definition _eig_jax_cpu := jnp_linalg_eig.

(** [jax.pure_callback(f, result_shapes, x)]: the value of [f] on the host. *)
Definition callback {X Y : Type} (f : X -> Y) (x : X) : Y := f x.

Definition _eig_jax (matrix : batched 'M[C]_n.+1)
  : batched 'rV[C]_n.+1 * batched 'M[C]_n.+1 :=
  if default_device_is_cpu then jnp_linalg_eig matrix
  else callback _eig_jax_cpu matrix.

Definition _eig (matrix : batched 'M[C]_n.+1)
  : batched 'rV[C]_n.+1 * batched 'M[C]_n.+1 :=
  if _JEIG_AVAILABLE then jeig_eig_batched matrix else _eig_jax matrix.

(** The primal function of the [jax.custom_vjp]: [del eps_relative]. *)
Definition eig (matrix : batched 'M[C]_n.+1) (eps_relative : R)
  : batched 'rV[C]_n.+1 * batched 'M[C]_n.+1 :=
  _eig matrix.

Definition _eig_fwd (matrix : batched 'M[C]_n.+1) (eps_relative : R)
  : (batched 'rV[C]_n.+1 * batched 'M[C]_n.+1) *
    (batched 'rV[C]_n.+1 * batched 'M[C]_n.+1 * R) :=
  let: (eigenvalues, eigenvectors) := _eig matrix in
  ((eigenvalues, eigenvectors), (eigenvalues, eigenvectors, eps_relative)).

(** [jnp.amax(a, axis=(-2, -1), keepdims=True)] on one matrix of the batch:
    the largest entry. *)
Definition amax (a : 'M[R]_n.+1) : R :=
  foldr Rmax (a ord0 ord0)
    [seq a p.1 p.2 | p <- enum {: 'I_n.+1 * 'I_n.+1}].

(** [m.at[..., i, i].set(v)] with [i = jnp.arange(N)]: the entries
    [(k, k)] are overwritten one index [k] after the other. *)
Definition at_diag_set (m : 'M[C]_n.+1) (v : C) : 'M[C]_n.+1 :=
  foldl (fun (m' : 'M[C]_n.+1) (k : 'I_n.+1) =>
           \matrix_(r, c) if (r == k) && (c == k) then v else m' r c)
    m (enum 'I_n.+1).

(** Modelled from the spec: [_misc.matrix_adjoint] (fmmax/_misc.py is not
    among the sources) is the conjugate transpose. *)
Definition matrix_adjoint (m : 'M[C]_n.+1) : 'M[C]_n.+1 :=
  map_mx Cconj m^T.

(** The entrywise product [a * b] of two matrices. *)
Definition hadamard (a b : 'M[C]_n.+1) : 'M[C]_n.+1 :=
  \matrix_(r, c) (a r c * b r c).

(** [jnp.where(eye_mask, a, 0.0)] *)
Definition where_eye (a : 'M[C]_n.+1) : 'M[C]_n.+1 :=
  \matrix_(r, c) if r == c then a r c else 0.

(** [delta_eig = eigenvalues[..., jnp.newaxis, :] -
                 eigenvalues[..., :, jnp.newaxis]] *)
Definition delta_eig (eigenvalues : batched 'rV[C]_n.+1)
  : batched 'M[C]_n.+1 :=
  let eigenvalues_i : batched 'M[C]_n.+1 :=
    fun b => \matrix_(r, c) eigenvalues b 0 c in
  let eigenvalues_j : batched 'M[C]_n.+1 :=
    fun b => \matrix_(r, c) eigenvalues b 0 r in
  fun b => eigenvalues_i b - eigenvalues_j b.

(** The regularisation scale [eps] of the backward pass. *)
Definition eig_eps (eigenvalues : batched 'rV[C]_n.+1) (eps_relative : R)
  : batched R :=
  let delta_eig := delta_eig eigenvalues in
  let eig_range_sq : batched R :=
    fun b => amax (map_mx Cnormsq (delta_eig b)) in
  fun b => Rmax (eps_relative * eig_range_sq b)%Re _EIG_EPS_MINIMUM.

(** [f_broadened], after its diagonal has been set to zero. *)
Definition f_broadened (eigenvalues : batched 'rV[C]_n.+1) (eps_relative : R)
  : batched 'M[C]_n.+1 :=
  let delta_eig := delta_eig eigenvalues in
  let eps := eig_eps eigenvalues eps_relative in
  let f_broadened : batched 'M[C]_n.+1 :=
    fun b => \matrix_(r, c)
      (Cconj (delta_eig b r c) /
       RtoC (Cnormsq (delta_eig b r c) + eps b)%Re) in
  fun b => at_diag_set (f_broadened b) 0.

Definition _eig_bwd
    (res : batched 'rV[C]_n.+1 * batched 'M[C]_n.+1 * R)
    (grads : batched 'rV[C]_n.+1 * batched 'M[C]_n.+1)
  : batched 'M[C]_n.+1 * option R :=
  let: (eigenvalues, eigenvectors, eps_relative) := res in
  let: (grad_eigenvalues, grad_eigenvectors) := grads in
  let f_broadened := f_broadened eigenvalues eps_relative in
  let grad_eigenvalues_conj : batched 'rV[C]_n.+1 :=
    fun b => map_mx Cconj (grad_eigenvalues b) in
  let grad_eigenvectors_conj : batched 'M[C]_n.+1 :=
    fun b => map_mx Cconj (grad_eigenvectors b) in
  let eigenvectors_H : batched 'M[C]_n.+1 :=
    fun b => matrix_adjoint (eigenvectors b) in
  let rhs : batched 'M[C]_n.+1 :=
    fun b =>
      (diag (grad_eigenvalues_conj b)
       + hadamard (map_mx Cconj (f_broadened b))
           (eigenvectors_H b *m grad_eigenvectors_conj b)
       - hadamard (map_mx Cconj (f_broadened b))
           (eigenvectors_H b *m eigenvectors b)
         *m where_eye
              (map_mx Creal (eigenvectors_H b *m grad_eigenvectors_conj b)))
      *m eigenvectors_H b in
  let grad_matrix : batched 'M[C]_n.+1 :=
    fun b => linalg_solve (eigenvectors_H b) (rhs b) in
  let grad_matrix : batched 'M[C]_n.+1 :=
    fun b => map_mx Cconj (grad_matrix b) in
  (grad_matrix, None).

(** *** Properties of the eigensolver *)

Lemma foldr_Rmax_ge (T : eqType) (f : T -> R) (x0 : R) (s : seq T) (t : T) :
  t \in s -> (f t <= foldr Rmax x0 [seq f x | x <- s])%Re.
Proof.
elim: s => //= x s IH; rewrite inE => /orP[/eqP->|/IH le].
  exact: Rmax_l.
exact: Rle_trans le (Rmax_r _ _).
Qed.

Lemma foldr_Rmax_attained (T : eqType) (f : T -> R) (x0 : R) (s : seq T) :
  foldr Rmax x0 [seq f x | x <- s] = x0 \/
  exists2 t, t \in s & foldr Rmax x0 [seq f x | x <- s] = f t.
Proof.
elim: s => [|x s IH] /=; first by left.
case: (Rle_lt_dec (f x) (foldr Rmax x0 [seq f x | x <- s])) => [le|lt];
    last first.
  by right; exists x; rewrite ?inE ?eqxx // Rmax_left //; apply: Rlt_le.
rewrite (Rmax_right _ _ le).
case: IH => [->|[t ts ->]]; first by left.
by right; exists t; rewrite ?inE ?ts ?orbT.
Qed.

Lemma amax_ge (a : 'M[R]_n.+1) (i j : 'I_n.+1) : (a i j <= amax a)%Re.
Proof.
by apply: (@foldr_Rmax_ge _ (fun p => a p.1 p.2) _ _ (i, j)); rewrite mem_enum.
Qed.

Lemma amax_attained (a : 'M[R]_n.+1) : exists i j, amax a = a i j.
Proof.
case: (@foldr_Rmax_attained _ (fun p : 'I_n.+1 * 'I_n.+1 => a p.1 p.2)
         (a ord0 ord0) (enum {: 'I_n.+1 * 'I_n.+1})) => [e|[[i j] _ e]].
  by exists ord0, ord0.
by exists i, j.
Qed.

Lemma at_diag_setE (m : 'M[C]_n.+1) (v : C) (r c : 'I_n.+1) :
  at_diag_set m v r c = if r == c then v else m r c.
Proof.
rewrite /at_diag_set.
have -> : (r == c) = (r == c) && (r \in enum 'I_n.+1).
  by rewrite mem_enum andbT.
elim: (enum 'I_n.+1) m => [|k ks IH] m /=; first by rewrite andbF.
rewrite IH mxE inE; case: (r == c) / eqP => [<-|ne] /=.
  by rewrite andbb; case: (r == k); case: (r \in ks).
case: eqP => // rk; case: eqP => // ck; case: ne.
by rewrite rk ck.
Qed.

(** The two default constants are positive, so that [eps] is positive. *)
Lemma eig_eps_pos (eigenvalues : batched 'rV[C]_n.+1) (eps_relative : R)
    (b : B) :
  (0 < eig_eps eigenvalues eps_relative b)%Re.
Proof.
rewrite /eig_eps; apply: Rlt_le_trans (Rmax_r _ _).
by rewrite /_EIG_EPS_MINIMUM; lra.
Qed.

(** C2. After the diagonal is set, entry [(i, j)] of [f_broadened] is zero
    for [i = j] and [conj(delta_ij) / (|delta_ij|^2 + eps)] otherwise, where
    [delta_ij = eigenvalue_j - eigenvalue_i], [eps] is the larger of
    [eps_relative * max_ij |delta_ij|^2] and [_EIG_EPS_MINIMUM], the maximum
    running over all pairs of the same batch element; the constants are
    [1e-12] and [1e-24]. *)
Theorem f_broadened_lorentzian
    (eigenvalues : batched 'rV[C]_n.+1) (eps_relative : R) (b : B)
    (i j : 'I_n.+1) :
  let delta (r c : 'I_n.+1) := eigenvalues b 0 c - eigenvalues b 0 r in
  let range_sq := amax (\matrix_(r, c) Cnormsq (delta r c)) in
  let eps := Rmax (eps_relative * range_sq)%Re _EIG_EPS_MINIMUM in
  [/\ f_broadened eigenvalues eps_relative b i j =
      (if i == j then 0
       else Cconj (delta i j) / RtoC (Cnormsq (delta i j) + eps)%Re),
      (forall r c, (Cnormsq (delta r c) <= range_sq)%Re) /\
      (exists r c, range_sq = Cnormsq (delta r c))
    & _EIG_EPS_RELATIVE = 1e-12%Re /\ _EIG_EPS_MINIMUM = 1e-24%Re].
Proof.
move=> delta range_sq eps.
have dE r c : delta_eig eigenvalues b r c = delta r c by rewrite !mxE.
have mE : map_mx Cnormsq (delta_eig eigenvalues b) =
          \matrix_(r, c) Cnormsq (delta r c).
  by apply/matrixP => r c; rewrite !mxE.
split=> //.
- rewrite /f_broadened at_diag_setE; case: eqP => // _.
  by rewrite mxE dE /eig_eps mE.
- split=> [r c|].
    by have := amax_ge (\matrix_(r, c) Cnormsq (delta r c)) r c; rewrite mxE.
  have [r [c e]] := amax_attained (\matrix_(r, c) Cnormsq (delta r c)).
  by exists r, c; rewrite /range_sq e mxE.
Qed.

(** The backward pass at one batch index reads its arguments at that
    index only. *)
Lemma eig_bwd_batch_local
    (eigenvalues eigenvalues' : batched 'rV[C]_n.+1)
    (eigenvectors eigenvectors' : batched 'M[C]_n.+1) (eps_relative : R)
    (grads grads' : batched 'rV[C]_n.+1 * batched 'M[C]_n.+1) (b : B) :
  eigenvalues b = eigenvalues' b -> eigenvectors b = eigenvectors' b ->
  grads.1 b = grads'.1 b -> grads.2 b = grads'.2 b ->
  eig_eps eigenvalues eps_relative b = eig_eps eigenvalues' eps_relative b /\
  (_eig_bwd (eigenvalues, eigenvectors, eps_relative) grads).1 b =
  (_eig_bwd (eigenvalues', eigenvectors', eps_relative) grads').1 b.
Proof.
case: grads grads' => [g1 g2] [g1' g2'] /= ev evec eg1 eg2.
have eps_eq :
    eig_eps eigenvalues eps_relative b = eig_eps eigenvalues' eps_relative b.
  by rewrite /eig_eps /delta_eig ev.
split=> //.
by rewrite /f_broadened eps_eq /delta_eig ev evec eg1 eg2.
Qed.

(** C8. In a batched backward pass the regularisation scale [eps] of a
    batch element is computed from the eigenvalue differences of that
    element only, and the gradient returned for a batch element does not
    change when the matrices (and the cotangents) of the other batch
    elements are replaced. *)
Theorem eig_gradient_batch_local
    (matrix matrix' : batched 'M[C]_n.+1) (eps_relative : R)
    (grads grads' : batched 'rV[C]_n.+1 * batched 'M[C]_n.+1) (b : B) :
  matrix b = matrix' b ->
  grads.1 b = grads'.1 b -> grads.2 b = grads'.2 b ->
  let res := (_eig_fwd matrix eps_relative).2 in
  let res' := (_eig_fwd matrix' eps_relative).2 in
  eig_eps res.1.1 res.2 b = eig_eps res'.1.1 res'.2 b /\
  (_eig_bwd res grads).1 b = (_eig_bwd res' grads').1 b.
Proof.
move=> em eg1 eg2; rewrite /_eig_fwd /_eig /_eig_jax /callback /_eig_jax_cpu.
by case: _JEIG_AVAILABLE; [|case: default_device_is_cpu];
   apply: eig_bwd_batch_local => //=; rewrite em.
Qed.

(** C9. The forward evaluation of [eig] does not depend on [eps_relative]:
    any two values of the argument give the same eigenvalues and
    eigenvectors, which are also the primal output of [_eig_fwd]; the
    argument reaches the backward pass through the residuals only. *)
Theorem eig_forward_ignores_eps_relative
    (matrix : batched 'M[C]_n.+1) (e1 e2 : R) :
  [/\ eig matrix e1 = eig matrix e2,
      (_eig_fwd matrix e1).1 = eig matrix e1 /\
      (_eig_fwd matrix e1).1 = (_eig_fwd matrix e2).1
    & (_eig_fwd matrix e1).2.2 = e1].
Proof.
by rewrite /eig /_eig_fwd; case: (_eig matrix).
Qed.

(** *** The broadened reciprocal *)

Lemma Cconj0 : Cconj 0 = 0.
Proof. by apply: C_eq => /=; ring. Qed.

Lemma CconjN (z : C) : Cconj (- z) = - Cconj z.
Proof. by apply: C_eq => /=; ring. Qed.

Lemma CnormsqN (z : C) : Cnormsq (- z) = Cnormsq z.
Proof. by rewrite /Cnormsq /=; ring. Qed.

Lemma Cnormsq_conj (z : C) : Cnormsq (Cconj z) = Cnormsq z.
Proof. by rewrite /Cnormsq /=; ring. Qed.

Lemma Cnormsq_ge0 (z : C) : (0 <= Cnormsq z)%Re.
Proof.
by rewrite /Cnormsq; move: (Rle_0_sqr (Re z)) (Rle_0_sqr (Im z)); rewrite /Rsqr; lra.
Qed.

Lemma Cnormsq_mul (k z : C) : Cnormsq (k * z) = (Cnormsq k * Cnormsq z)%Re.
Proof. by rewrite /Cnormsq /=; ring. Qed.

Lemma Cdiv_real (z : C) (r : R) :
  r <> 0%Re -> z / RtoC r = MkC (Re z / r) (Im z / r).
Proof. by move=> nz; apply: C_eq; rewrite /= /Cnormsq /=; field. Qed.

Lemma f_broadenedE (eigenvalues : batched 'rV[C]_n.+1) (eps_relative : R)
    (b : B) (i j : 'I_n.+1) :
  f_broadened eigenvalues eps_relative b i j =
  if i == j then 0
  else Cconj (eigenvalues b 0 j - eigenvalues b 0 i) /
       RtoC (Rplus (Cnormsq (eigenvalues b 0 j - eigenvalues b 0 i))
                   (eig_eps eigenvalues eps_relative b)).
Proof.
by rewrite /f_broadened at_diag_setE; case: eqP => // _; rewrite !mxE.
Qed.

Lemma broadened_denominator (eigenvalues : batched 'rV[C]_n.+1)
    (eps_relative : R) (b : B) (z : C) :
  (0 < Cnormsq z + eig_eps eigenvalues eps_relative b)%Re.
Proof.
by move: (Cnormsq_ge0 z) (eig_eps_pos eigenvalues eps_relative b); lra.
Qed.

(** X10. [f_broadened] is antisymmetric, as the reciprocal of the eigenvalue
    differences that it replaces. *)
Theorem f_broadened_antisymmetric
    (eigenvalues : batched 'rV[C]_n.+1) (eps_relative : R) (b : B)
    (i j : 'I_n.+1) :
  f_broadened eigenvalues eps_relative b j i =
  - f_broadened eigenvalues eps_relative b i j.
Proof.
rewrite !f_broadenedE eq_sym; case: (i == j); first by rewrite oppr0.
by rewrite -(opprB (eigenvalues b 0 j)) CconjN CnormsqN mulNr.
Qed.

(** X11. Where the plain reciprocal [1 / delta] grows without bound,
    [f_broadened] stays bounded: [|f_ij|^2 <= 1 / (4 * eps)].  It is zero
    for two equal eigenvalues, and [f_ij * delta_ij] is the real number
    [|delta_ij|^2 / (|delta_ij|^2 + eps)], between 0 and 1. *)
Theorem f_broadened_bounded
    (eigenvalues : batched 'rV[C]_n.+1) (eps_relative : R) (b : B)
    (i j : 'I_n.+1) :
  let f := f_broadened eigenvalues eps_relative b i j in
  let delta := eigenvalues b 0 j - eigenvalues b 0 i in
  let eps := eig_eps eigenvalues eps_relative b in
  [/\ (Cnormsq f * (4 * eps) <= 1)%Re,
      eigenvalues b 0 i = eigenvalues b 0 j -> f = 0,
      f * delta =
      (if i == j then 0 else RtoC (Cnormsq delta / (Cnormsq delta + eps)))
    & (0 <= Cnormsq delta / (Cnormsq delta + eps) < 1)%Re].
Proof.
move=> f delta eps; rewrite /f f_broadenedE -/delta -/eps {f}.
have epos : (0 < eps)%Re by exact: eig_eps_pos.
have xge := Cnormsq_ge0 delta.
have rpos : (0 < Cnormsq delta + eps)%Re by lra.
have rnz : (Cnormsq delta + eps)%Re <> 0%Re by lra.
split.
- case: (i == j); first by rewrite /Cnormsq /=; lra.
  rewrite (Cdiv_real _ rnz) {1}/Cnormsq /=.
  set x := Cnormsq delta in xge rpos rnz *.
  have -> : ((Re delta / (x + eps) * (Re delta / (x + eps)) +
              - Im delta / (x + eps) * (- Im delta / (x + eps)))
             * (4 * eps) =
             1 - (x - eps) * (x - eps) / ((x + eps) * (x + eps)))%Re.
    by rewrite /x /Cnormsq; field; rewrite -/(Cnormsq delta).
  have : (0 <= (x - eps) * (x - eps) / ((x + eps) * (x + eps)))%Re.
    apply: Rle_mult_inv_pos; first exact: Rle_0_sqr.
    exact: Rmult_lt_0_compat.
  by lra.
- move=> e; case: (i == j) => //.
  by rewrite /delta e subrr Cconj0 mul0r.
- case: (i == j); first by rewrite mul0r.
  rewrite (Cdiv_real _ rnz); apply: C_eq; rewrite /= /Cnormsq /=; field;
    by rewrite -/(Cnormsq delta).
- split; first by apply: Rle_mult_inv_pos.
  apply: (Rmult_lt_reg_r (Cnormsq delta + eps)) => //.
  by rewrite /Rdiv Rmult_assoc Rinv_l //; lra.
Qed.

(** *** Independence from the scale of the matrix *)

Lemma CconjM (z w : C) : Cconj (z * w) = Cconj z * Cconj w.
Proof. by apply: C_eq => /=; ring. Qed.

Lemma Cnormsq_gt0 (z : C) : z <> 0 -> (0 < Cnormsq z)%Re.
Proof.
move=> nz; case: (Rle_lt_or_eq_dec _ _ (Cnormsq_ge0 z)) => // e.
by case: nz; apply: Cnormsq_eq0.
Qed.

Lemma foldr_Rmax_scale (T : Type) (f : T -> R) (k x0 : R) (s : seq T) :
  (0 <= k)%Re ->
  foldr Rmax (k * x0)%Re [seq (k * f x)%Re | x <- s] =
  (k * foldr Rmax x0 [seq f x | x <- s])%Re.
Proof. by move=> k0; elim: s => //= x s ->; apply: RmaxRmult. Qed.

Lemma amax_scale (k : R) (a : 'M[R]_n.+1) :
  (0 <= k)%Re -> amax (\matrix_(r, c) (k * a r c)%Re) = (k * amax a)%Re.
Proof.
move=> k0; rewrite /amax mxE.
rewrite -(foldr_Rmax_scale (fun p : 'I_n.+1 * 'I_n.+1 => a p.1 p.2)) //.
by congr foldr; apply: eq_map => p; rewrite mxE.
Qed.

Lemma delta_eig_scale (k : C) (eigenvalues : batched 'rV[C]_n.+1) (b : B) :
  map_mx Cnormsq (delta_eig (fun b' => k *: eigenvalues b') b) =
  \matrix_(r, c)
    (Cnormsq k * (map_mx Cnormsq (delta_eig eigenvalues b)) r c)%Re.
Proof.
by apply/matrixP => r c; rewrite !mxE -mulrBr Cnormsq_mul.
Qed.

(** X12. The comment of [_eig_bwd] asks that the gradient of a scaled matrix be
    the scaled gradient.  When the eigenvalues are multiplied by [k], and
    the eigenvalue range is large enough for the floor [_EIG_EPS_MINIMUM]
    to stay inactive before and after, [eps] is multiplied by [|k|^2] and
    [f_broadened] is divided by [k], as the reciprocal of the eigenvalue
    differences would be. *)
Theorem f_broadened_scaling
    (k : C) (eigenvalues : batched 'rV[C]_n.+1) (eps_relative : R) (b : B)
    (r c i j : 'I_n.+1) :
  k <> 0 -> (0 <= eps_relative)%Re ->
  Rle _EIG_EPS_MINIMUM
    (Rmult eps_relative
       (Cnormsq (eigenvalues b 0 c - eigenvalues b 0 r))) ->
  Rle _EIG_EPS_MINIMUM
    (Rmult eps_relative
       (Cnormsq (k * (eigenvalues b 0 c - eigenvalues b 0 r)))) ->
  eig_eps (fun b' => k *: eigenvalues b') eps_relative b =
  (Cnormsq k * eig_eps eigenvalues eps_relative b)%Re /\
  f_broadened (fun b' => k *: eigenvalues b') eps_relative b i j * k =
  f_broadened eigenvalues eps_relative b i j.
Proof.
move=> knz e0 floor floor'.
have kpos := Cnormsq_gt0 knz.
set range := amax (map_mx Cnormsq (delta_eig eigenvalues b)).
have ge : Rle (Cnormsq (eigenvalues b 0 c - eigenvalues b 0 r)) range.
  by have := amax_ge (map_mx Cnormsq (delta_eig eigenvalues b)) r c;
     rewrite !mxE.
have eps1 : eig_eps eigenvalues eps_relative b = (eps_relative * range)%Re.
  rewrite /eig_eps -/range Rmax_left //.
  by apply: Rle_trans floor _; apply: Rmult_le_compat_l.
have eps2 : eig_eps (fun b' => k *: eigenvalues b') eps_relative b =
            (Cnormsq k * (eps_relative * range))%Re.
  rewrite /eig_eps delta_eig_scale (amax_scale _ (Rlt_le _ _ kpos)).
  rewrite -/range Rmax_left; last by ring.
  apply: Rle_trans floor' _; rewrite Cnormsq_mul.
  apply: Rmult_le_compat_l => //; apply: Rmult_le_compat_l => //.
  exact: Rlt_le.
split; first by rewrite eps2 eps1.
rewrite !f_broadenedE; case: (i == j); first by rewrite mul0r.
rewrite eps2 eps1 !mxE -mulrBr Cnormsq_mul CconjM.
set d := eigenvalues b 0 j - eigenvalues b 0 i.
have xge := Cnormsq_ge0 d.
have epos : (0 < eps_relative * range)%Re.
  by rewrite -eps1; exact: eig_eps_pos.
have rnz : (Cnormsq d + eps_relative * range)%Re <> 0%Re by lra.
have rnz' : (Cnormsq k * Cnormsq d +
             Cnormsq k * (eps_relative * range))%Re <> 0%Re.
  rewrite -Rmult_plus_distr_l => /Rmult_integral [] //.
  by move: kpos; lra.
rewrite (Cdiv_real _ rnz) (Cdiv_real _ rnz').
set x := Cnormsq d in rnz rnz' *; set e := (eps_relative * range)%Re in rnz rnz' *.
have knz' : (Re k * Re k + Im k * Im k)%Re <> 0%Re.
  by move: kpos; rewrite /Cnormsq; lra.
by apply: C_eq; rewrite /= /Cnormsq /=; field.
Qed.

(** *** The gradient with respect to the eigenvalues alone *)

Lemma conj_mx0 (p q : nat) : map_mx Cconj (0 : 'M[C]_(p, q)) = 0.
Proof. by apply/matrixP => r c; rewrite !mxE Cconj0. Qed.

Lemma hadamard0 (a : 'M[C]_n.+1) : hadamard a 0 = 0.
Proof. by apply/matrixP => r c; rewrite !mxE mulr0. Qed.

Lemma where_eye_real0 : where_eye (map_mx Creal 0) = 0.
Proof.
by apply/matrixP => r c; rewrite !mxE; case: (r == c).
Qed.

(** X13. At a batch index where the cotangent of the eigenvectors is zero, the
    broadening plays no part: the gradient is the conjugate of the solution
    of [V^H x = diag(conj(g)) V^H], whatever [eps_relative] and the
    eigenvalues are. *)
Theorem eig_bwd_zero_eigenvector_cotangent
    (eigenvalues : batched 'rV[C]_n.+1) (eigenvectors : batched 'M[C]_n.+1)
    (eps_relative : R)
    (grad_eigenvalues : batched 'rV[C]_n.+1)
    (grad_eigenvectors : batched 'M[C]_n.+1) (b : B) :
  grad_eigenvectors b = 0 ->
  (_eig_bwd (eigenvalues, eigenvectors, eps_relative)
     (grad_eigenvalues, grad_eigenvectors)).1 b =
  map_mx Cconj
    (linalg_solve (matrix_adjoint (eigenvectors b))
       (diag (map_mx Cconj (grad_eigenvalues b)) *m
        matrix_adjoint (eigenvectors b))).
Proof.
move=> g0; rewrite /_eig_bwd /= g0 conj_mx0 mulmx0 hadamard0.
by rewrite where_eye_real0 mulmx0 addr0 subr0.
Qed.

End Eig.

(** ** Concrete instances

    An exact solver, the broadcast that changes the batch shape and no
    value, and single-mode layers ([N = 1]) to run the engine on. *)

(** The exact solution of [a @ x = b] for an invertible [a]. *)
Definition solve_inv (n : nat) (a b : 'M[C]_n) (force_x64_solve : bool)
  : 'M[C]_n :=
  invmx a *m b.

(** Broadcasting as it acts at one batch index: every value is kept, the
    batch shape becomes the target shape. *)
Definition broadcast_values (n : nat) (T : Type) (l : LayerSolveResult n T)
    (s : shape) : LayerSolveResult n T :=
  MkLayerSolveResult s (eigenvalues l) (eigenvectors l)
    (omega_script_k_matrix l) (tangent_vector_field l).

(** A layer with the single eigenvalue [q], unit eigenvector and unit
    omega-script-k matrix, of scalar batch shape. *)
Definition mode_layer (q : C) (tvf : option unit) : LayerSolveResult 1 unit :=
  MkLayerSolveResult [::] (const_mx q) 1%:M 1%:M tvf.

Definition layer_a : LayerSolveResult 1 unit := mode_layer 1 (Some tt).
Definition layer_b : LayerSolveResult 1 unit := mode_layer (RtoC 2) None.
Definition layer_c : LayerSolveResult 1 unit := mode_layer Ci (Some tt).

Lemma solve_inv_scale_cols (n : nat) (a b : 'M[C]_n) (v : 'rV[C]_n)
    (f : bool) :
  solve_inv a (scale_cols b v) f = scale_cols (solve_inv a b f) v.
Proof. by rewrite /solve_inv !scale_colsE mulmxA. Qed.

Lemma broadcast_values_modes (n : nat) (T : Type) (l : LayerSolveResult n T) :
  same_modes (broadcast_values l (batch_shape l)) l.
Proof. by []. Qed.

Lemma broadcast_values_None (n : nat) (T : Type) (l : LayerSolveResult n T)
    (s : shape) :
  tangent_vector_field l = None ->
  tangent_vector_field (broadcast_values l s) = None.
Proof. by []. Qed.

Lemma stack_s_matrix_scan_same_blocks_witness :
  exists s s' : ScatteringMatrix 1 unit,
    [/\ stack_s_matrix (@solve_inv 1) (@broadcast_values 1 unit)
          [:: layer_a; layer_b; layer_c] [:: 1%Re; 2%Re; 3%Re] false = ret s,
        stack_s_matrix_scan (@solve_inv 1) [:: layer_a; layer_b; layer_c]
          (MkThicknessArray 1 [:: 1%Re; 2%Re; 3%Re]) false = ret s'
      & blocks s = blocks s'].
Proof.
apply: (@stack_s_matrix_scan_same_blocks 1 unit (@solve_inv 1)
          (@broadcast_values 1 unit) _ _ [::]) => //.
Defined.

Lemma set_end_layer_thickness_rebuild_witness :
  exists s : ScatteringMatrix 1 unit,
    stack_s_matrix (@solve_inv 1) (@broadcast_values 1 unit)
      [:: layer_a; layer_b; layer_c] (rcons [:: 1%Re; 2%Re] 3%Re) false =
    ret s /\
    stack_s_matrix (@solve_inv 1) (@broadcast_values 1 unit)
      [:: layer_a; layer_b; layer_c] (rcons [:: 1%Re; 2%Re] 5%Re) false =
    ret (set_end_layer_thickness s 5%Re).
Proof.
have H := @stack_s_matrixE 1 unit (@solve_inv 1) (@broadcast_values 1 unit)
            [:: layer_a; layer_b; layer_c] (rcons [:: 1%Re; 2%Re] 3%Re)
            [::] false (erefl _) (erefl _).
eexists; split; first exact: H.
by apply: (set_end_layer_thickness_rebuild (@solve_inv_scale_cols 1) 5%Re _ H).
Defined.

Lemma Cexp_minus1_neq1 : Cexp (Ci * Ci * RtoC (1 - 0)%Re) <> 1.
Proof.
move=> /(congr1 Re); rewrite /GRing.mul /GRing.one /=.
have -> : ((0 * 0 - 1 * 1) * (1 - 0) - (0 * 1 + 1 * 0) * 0 = -1)%Re by ring.
have -> : ((0 * 0 - 1 * 1) * 0 + (0 * 1 + 1 * 0) * (1 - 0) = 0)%Re by ring.
rewrite cos_0 => e.
have : (exp (-1) < exp 0)%Re by apply: exp_increasing; lra.
by rewrite exp_0; lra.
Qed.

(** C4 as stated fails for a stack of a single layer: [stack_s_matrix]
    returns the identity blocks whatever the thickness, while
    [set_end_layer_thickness] multiplies the identity [s22] by the phase
    [exp(1j * q * (t2 - t))], here [exp(-1)] for [q = 1j], [t = 0] and
    [t2 = 1]. *)
Lemma set_end_layer_thickness_single_layer_counterexample :
  exists s s' : ScatteringMatrix 1 unit,
    [/\ stack_s_matrix (@solve_inv 1) (@broadcast_values 1 unit)
          [:: layer_c] [:: 0%Re] false = ret s,
        stack_s_matrix (@solve_inv 1) (@broadcast_values 1 unit)
          [:: layer_c] [:: 1%Re] false = ret s'
      & s22 (set_end_layer_thickness s 1%Re) <> s22 s'].
Proof.
have H t := @stack_s_matrixE 1 unit (@solve_inv 1) (@broadcast_values 1 unit)
              [:: layer_c] [:: t] [::] false (erefl _) (erefl _).
do 2![eexists]; split; [exact: H|exact: H|] => /=.
move=> /matrixP /(_ ord0 ord0); rewrite !mxE /= mul1r.
exact: Cexp_minus1_neq1.
Qed.

Lemma stored_solve_results_without_tangent_field_witness :
  exists s : ScatteringMatrix 1 unit,
    [/\ stack_s_matrix (@solve_inv 1) (@broadcast_values 1 unit)
          [:: layer_a; layer_b; layer_c] [:: 1%Re; 2%Re; 3%Re] false = ret s,
        tangent_vector_field layer_a = Some tt,
        stripped s
      & start_layer_solve_result s <> layer_a /\
        end_layer_solve_result s <> layer_c].
Proof.
have H := @stack_s_matrixE 1 unit (@solve_inv 1) (@broadcast_values 1 unit)
            [:: layer_a; layer_b; layer_c] [:: 1%Re; 2%Re; 3%Re]
            [::] false (erefl _) (erefl _).
have [H1 _ H3] :=
  stored_solve_results_without_tangent_field (@solve_inv 1)
    (@broadcast_values_None 1 unit)
    [:: layer_a; layer_b; layer_c] [:: 1%Re; 2%Re; 3%Re] false.
eexists; split; [exact: H | by [] | exact: H1 H |].
by split; [case: (H3 _ layer_a H)|case: (H3 _ layer_c H)].
Defined.


(** *** A batch of two-by-two matrices

    Diagonal matrices, whose eigendecomposition is exact: the eigenvalues
    are the diagonal entries and the eigenvectors the identity matrix.  The
    two batches agree at the index [true], with eigenvalues 0 and 1, and
    differ at the index [false], with eigenvalues 0 and 3 against 0 and 5;
    every cotangent entry is 1. *)

Definition eig_diagonal (m : 'M[C]_2) : 'rV[C]_2 * 'M[C]_2 :=
  (\row_j m j j, 1%:M).

(** The diagonal matrix with the entries [x] and [y]. *)
Definition diag2 (x y : C) : 'M[C]_2 :=
  \matrix_(i, j) (if i == j then (if i == ord0 then x else y) else 0).

Definition batch_x : batched bool 'M[C]_2 :=
  fun b => if b then diag2 0 1 else diag2 0 (RtoC 3).

Definition batch_y : batched bool 'M[C]_2 :=
  fun b => if b then diag2 0 1 else diag2 0 (RtoC 5).

Definition cotangents : batched bool 'rV[C]_2 * batched bool 'M[C]_2 :=
  (fun _ => const_mx 1, fun _ => const_mx 1).

Lemma ord2_cases (P : 'I_2 -> Prop) : P ord0 -> P ord_max -> forall i, P i.
Proof.
move=> P0 P1 [[|[|i]] lt] //.
  by rewrite (_ : Ordinal lt = ord0) //; apply: val_inj.
by rewrite (_ : Ordinal lt = ord_max) //; apply: val_inj.
Qed.

Lemma matrix_adjoint1 (n : nat) : matrix_adjoint (1%:M : 'M[C]_n.+1) = 1%:M.
Proof.
apply/matrixP => i j; rewrite !mxE eq_sym; case: (i == j).
  by apply: C_eq => /=; rewrite /GRing.one /=; ring.
exact: Cconj0.
Qed.

Lemma batch_xy_true : batch_x true = batch_y true.
Proof. by []. Qed.

Lemma batch_xy_false : batch_x false <> batch_y false.
Proof.
move=> /matrixP /(_ ord_max ord_max); rewrite !mxE /= => /(congr1 Re) /=.
by lra.
Qed.

(** With the identity for eigenvectors and an exact solve, the backward
    pass returns the conjugate of [diag(conj(g)) + conj(f) * conj(gv)]. *)

Lemma hadamard_broadened_eye (B : Type) (n : nat)
    (eigenvalues : batched B 'rV[C]_n.+1) (eps_relative : R) (b : B) :
  hadamard (map_mx Cconj (f_broadened eigenvalues eps_relative b)) 1%:M = 0.
Proof.
apply/matrixP => i j; rewrite !mxE f_broadenedE.
by case: (i == j); rewrite /= ?Cconj0 ?mul0r ?mulr0n ?mulr0.
Qed.

Lemma eig_bwd_identity_eigenvectors (B : Type) (n : nat)
    (eigenvalues : batched B 'rV[C]_n.+1)
    (eigenvectors : batched B 'M[C]_n.+1) (eps_relative : R)
    (g : batched B 'rV[C]_n.+1) (gv : batched B 'M[C]_n.+1) (b : B) :
  eigenvectors b = 1%:M ->
  (_eig_bwd (fun x y : 'M[C]_n.+1 => invmx x *m y)
     (eigenvalues, eigenvectors, eps_relative) (g, gv)).1 b =
  map_mx Cconj
    (diag (map_mx Cconj (g b)) +
     hadamard (map_mx Cconj (f_broadened eigenvalues eps_relative b))
       (map_mx Cconj (gv b))).
Proof.
move=> e1; rewrite /_eig_bwd /= e1 matrix_adjoint1 invmx1 !mul1mx !mulmx1.
by rewrite hadamard_broadened_eye mul0mx subr0.
Qed.

Lemma eig_eps_ge (B : Type) (n : nat) (eigenvalues : batched B 'rV[C]_n.+1)
    (eps_relative : R) (b : B) (r c : 'I_n.+1) :
  (0 <= eps_relative)%Re ->
  Rle (Rmult eps_relative (Cnormsq (eigenvalues b 0 c - eigenvalues b 0 r)))
    (eig_eps eigenvalues eps_relative b).
Proof.
move=> e0; rewrite /eig_eps; apply: Rle_trans (Rmax_l _ _).
apply: Rmult_le_compat_l => //.
by have := amax_ge (map_mx Cnormsq (delta_eig eigenvalues b)) r c; rewrite !mxE.
Qed.

Lemma eig_eps_le (B : Type) (n : nat) (eigenvalues : batched B 'rV[C]_n.+1)
    (eps_relative : R) (b : B) (m : R) :
  (0 <= eps_relative)%Re -> (_EIG_EPS_MINIMUM <= eps_relative * m)%Re ->
  (forall r c : 'I_n.+1,
     Rle (Cnormsq (eigenvalues b 0 c - eigenvalues b 0 r)) m) ->
  (eig_eps eigenvalues eps_relative b <= eps_relative * m)%Re.
Proof.
move=> e0 fl bound; rewrite /eig_eps; apply: Rmax_lub => //.
apply: Rmult_le_compat_l => //.
have [r [c ->]] := amax_attained (map_mx Cnormsq (delta_eig eigenvalues b)).
by rewrite !mxE.
Qed.

Lemma CconjK (z : C) : Cconj (Cconj z) = z.
Proof. by apply: C_eq => /=; ring. Qed.

(** Off the diagonal, the gradient is the entrywise product of
    [f_broadened] and the cotangent of the eigenvectors. *)
Lemma eig_bwd_off_diagonal (B : Type) (n : nat)
    (eigenvalues : batched B 'rV[C]_n.+1)
    (eigenvectors : batched B 'M[C]_n.+1) (eps_relative : R)
    (g : batched B 'rV[C]_n.+1) (gv : batched B 'M[C]_n.+1) (b : B)
    (i j : 'I_n.+1) :
  eigenvectors b = 1%:M -> i != j ->
  (_eig_bwd (fun x y : 'M[C]_n.+1 => invmx x *m y)
     (eigenvalues, eigenvectors, eps_relative) (g, gv)).1 b i j =
  f_broadened eigenvalues eps_relative b i j * gv b i j.
Proof.
move=> e1 ne; rewrite (eig_bwd_identity_eigenvectors _ _ _ _ e1) !mxE.
by rewrite (negbTE ne) mulr0n add0r CconjM !CconjK.
Qed.

(** The eigenvalues that the forward pass hands to the backward pass. *)
Definition spectrum (m : batched bool 'M[C]_2) : batched bool 'rV[C]_2 :=
  (_eig_fwd eig_diagonal eig_diagonal false true m 1e-12).2.1.1.

Lemma spectrum_diag2 (m : batched bool 'M[C]_2) (b : bool) (x y : C) :
  m b = diag2 x y ->
  spectrum m b 0 ord0 = x /\ spectrum m b 0 ord_max = y.
Proof. by move=> e; rewrite /spectrum /= e !mxE. Qed.

Lemma spectrum_gap (m : batched bool 'M[C]_2) (b : bool) (x y : C) :
  m b = diag2 x y ->
  forall r c : 'I_2,
    Rle (Cnormsq (spectrum m b 0 c - spectrum m b 0 r)) (Cnormsq (y - x)).
Proof.
move=> /spectrum_diag2 [e0 e1]; have ge := Cnormsq_ge0 (y - x).
have z : Cnormsq 0 = 0%Re by rewrite /Cnormsq /=; ring.
apply: ord2_cases; apply: ord2_cases; rewrite ?e0 ?e1 ?subrr ?z //.
- exact: Rle_refl.
- by rewrite -opprB CnormsqN; apply: Rle_refl.
Qed.

Lemma spectrum_eps (m : batched bool 'M[C]_2) (b : bool) (x y : C) :
  m b = diag2 x y ->
  (_EIG_EPS_MINIMUM <= 1e-12 * Cnormsq (y - x)%R)%Re ->
  eig_eps (spectrum m) 1e-12 b = (1e-12 * Cnormsq (y - x)%R)%Re.
Proof.
move=> e fl; have e0 : (0 <= 1e-12)%Re by lra.
apply: Rle_antisym.
  by apply: eig_eps_le => //; apply: spectrum_gap.
have := eig_eps_ge (spectrum m) b ord0 ord_max e0.
by have [-> ->] := spectrum_diag2 e.
Qed.

Lemma Cnormsq_real (x : R) : Cnormsq (RtoC x - 0) = (x * x)%Re.
Proof. by rewrite subr0 /Cnormsq /=; ring. Qed.

Lemma Cnormsq_one : Cnormsq (1 - 0) = 1%Re.
Proof. by rewrite subr0 /Cnormsq /GRing.one /=; ring. Qed.

Lemma spectrum_gradient (m : batched bool 'M[C]_2) (b : bool) :
  (_eig_bwd (fun x y : 'M[C]_2 => invmx x *m y)
     (_eig_fwd eig_diagonal eig_diagonal false true m 1e-12).2
     cotangents).1 b ord0 ord_max =
  f_broadened (spectrum m) 1e-12 b ord0 ord_max.
Proof.
apply: etrans (_ : f_broadened (spectrum m) 1e-12 b ord0 ord_max
                   * cotangents.2 b ord0 ord_max = _);
  last by rewrite mxE mulr1.
exact: (@eig_bwd_off_diagonal bool 1 (spectrum m)
          (fun b' => (eig_diagonal (m b')).2) 1e-12
          cotangents.1 cotangents.2 b ord0 ord_max (erefl _) isT).
Qed.

Lemma spectrum_f_broadened (m : batched bool 'M[C]_2) (b : bool) (x : R) :
  m b = diag2 0 (RtoC x) -> (_EIG_EPS_MINIMUM <= 1e-12 * (x * x))%Re ->
  Re (f_broadened (spectrum m) 1e-12 b ord0 ord_max) =
  (x / (x * x + 1e-12 * (x * x)))%Re.
Proof.
move=> e fl; have xpos : (0 < x * x)%Re.
  by move: fl; rewrite /_EIG_EPS_MINIMUM; lra.
rewrite f_broadenedE (_ : (ord0 == ord_max :> 'I_2) = false) //.
have [-> ->] := spectrum_diag2 e.
have nz : (x * x + 1e-12 * (x * x))%Re <> 0%Re by lra.
by rewrite (spectrum_eps e) ?Cnormsq_real // (Cdiv_real _ nz) subr0.
Qed.

Lemma floor_below (x : R) :
  (1 <= x * x)%Re -> (_EIG_EPS_MINIMUM <= 1e-12 * (x * x))%Re.
Proof. by rewrite /_EIG_EPS_MINIMUM; lra. Qed.

Lemma floor_below_gap (x : R) :
  (1 <= x * x)%Re ->
  (_EIG_EPS_MINIMUM <= 1e-12 * Cnormsq (RtoC x - 0)%R)%Re.
Proof. by rewrite Cnormsq_real; apply: floor_below. Qed.

Lemma batch_x_eps_true :
  eig_eps (spectrum batch_x) 1e-12 true = 1e-12%Re.
Proof.
have fl : (_EIG_EPS_MINIMUM <= 1e-12 * Cnormsq (1 - 0)%R)%Re.
  by rewrite Cnormsq_one /_EIG_EPS_MINIMUM; lra.
by rewrite (@spectrum_eps batch_x true 0 1 (erefl _) fl) Cnormsq_one Rmult_1_r.
Qed.

Lemma batch_xy_eps_false :
  eig_eps (spectrum batch_x) 1e-12 false <>
  eig_eps (spectrum batch_y) 1e-12 false.
Proof.
have f3 : (1 <= 3 * 3)%Re by lra.
have f5 : (1 <= 5 * 5)%Re by lra.
rewrite (@spectrum_eps batch_x false 0 (RtoC 3) (erefl _) (floor_below_gap f3)).
rewrite (@spectrum_eps batch_y false 0 (RtoC 5) (erefl _) (floor_below_gap f5)).
by rewrite !Cnormsq_real; lra.
Qed.

Lemma batch_xy_gradient_false :
  (_eig_bwd (fun x y : 'M[C]_2 => invmx x *m y)
     (_eig_fwd eig_diagonal eig_diagonal false true batch_x 1e-12).2
     cotangents).1 false <>
  (_eig_bwd (fun x y : 'M[C]_2 => invmx x *m y)
     (_eig_fwd eig_diagonal eig_diagonal false true batch_y 1e-12).2
     cotangents).1 false.
Proof.
have f3 : (1 <= 3 * 3)%Re by lra.
have f5 : (1 <= 5 * 5)%Re by lra.
move=> /matrixP /(_ ord0 ord_max) H.
have {H} := etrans (esym (spectrum_gradient batch_x false))
              (etrans H (spectrum_gradient batch_y false)).
move=> /(congr1 Re).
rewrite (@spectrum_f_broadened batch_x false 3 (erefl _) (floor_below f3)).
rewrite (@spectrum_f_broadened batch_y false 5 (erefl _) (floor_below f5)).
have -> : (3 / (3 * 3 + 1e-12 * (3 * 3)) = / 3 * / (1 + 1e-12))%Re.
  by field; lra.
have -> : (5 / (5 * 5 + 1e-12 * (5 * 5)) = / 5 * / (1 + 1e-12))%Re.
  by field; lra.
have : (0 < / (1 + 1e-12))%Re by apply: Rinv_0_lt_compat; lra.
by lra.
Qed.

(** On the two batches: at the index [false] the matrices, the
    regularisation scale and the gradient all differ; at the index [true],
    where the scale is [1e-12], above its floor, scale and gradient
    agree. *)
Lemma eig_gradient_batch_local_witness :
  [/\ batch_x false <> batch_y false,
      eig_eps (spectrum batch_x) 1e-12 false <>
      eig_eps (spectrum batch_y) 1e-12 false,
      (_eig_bwd (fun x y : 'M[C]_2 => invmx x *m y)
         (_eig_fwd eig_diagonal eig_diagonal false true batch_x 1e-12).2
         cotangents).1 false <>
      (_eig_bwd (fun x y : 'M[C]_2 => invmx x *m y)
         (_eig_fwd eig_diagonal eig_diagonal false true batch_y 1e-12).2
         cotangents).1 false,
      eig_eps (spectrum batch_x) 1e-12 true = 1e-12%Re
    & eig_eps (spectrum batch_x) 1e-12 true =
      eig_eps (spectrum batch_y) 1e-12 true /\
      (_eig_bwd (fun x y : 'M[C]_2 => invmx x *m y)
         (_eig_fwd eig_diagonal eig_diagonal false true batch_x 1e-12).2
         cotangents).1 true =
      (_eig_bwd (fun x y : 'M[C]_2 => invmx x *m y)
         (_eig_fwd eig_diagonal eig_diagonal false true batch_y 1e-12).2
         cotangents).1 true].
Proof.
exact: (And5 batch_xy_false batch_xy_eps_false batch_xy_gradient_false
          batch_x_eps_true
          (@eig_gradient_batch_local bool 1 eig_diagonal eig_diagonal
             (fun x y : 'M[C]_2 => invmx x *m y) false true
             batch_x batch_y 1e-12 cotangents cotangents true
             batch_xy_true (erefl _) (erefl _))).
Defined.

(** *** Instances of the further properties *)

Lemma solve_inv_identity (n : nat) (b : 'M[C]_n) (f : bool) :
  solve_inv 1%:M b f = b.
Proof. by rewrite /solve_inv invmx1 mul1mx. Qed.

Lemma set_start_layer_thickness_rebuild_witness :
  exists s : ScatteringMatrix 1 unit,
    stack_s_matrix (@solve_inv 1) (@broadcast_values 1 unit)
      [:: layer_a; layer_b; layer_c] [:: 1%Re; 2%Re; 3%Re] false =
    ret s /\
    stack_s_matrix (@solve_inv 1) (@broadcast_values 1 unit)
      [:: layer_a; layer_b; layer_c] [:: 5%Re; 2%Re; 3%Re] false =
    ret (set_start_layer_thickness s 5%Re).
Proof.
have H := @stack_s_matrixE 1 unit (@solve_inv 1) (@broadcast_values 1 unit)
            [:: layer_a; layer_b; layer_c] [:: 1%Re; 2%Re; 3%Re]
            [::] false (erefl _) (erefl _).
eexists; split; first exact: H.
exact: (@set_start_layer_thickness_rebuild 1 unit (@solve_inv 1)
          (@broadcast_values 1 unit) (@solve_inv_scale_cols 1)
          [:: layer_a; layer_b; layer_c] [:: 2%Re; 3%Re] 1%Re 5%Re false _
          isT H).
Defined.

Lemma redheffer_star_product_single_layer_witness :
  exists a b : ScatteringMatrix 1 unit,
    [/\ stack_s_matrix (@solve_inv 1) (@broadcast_values 1 unit)
          [:: layer_a; layer_b] [:: 1%Re; 2%Re] false = ret a,
        stack_s_matrix (@solve_inv 1) (@broadcast_values 1 unit)
          [:: layer_c] [:: 3%Re] true = ret b
      & redheffer_star_product (@solve_inv 1) a b true =
        append_layer (@solve_inv 1) a (end_layer_solve_result b)
          (end_layer_thickness b) false].
Proof.
have Ha := @stack_s_matrixE 1 unit (@solve_inv 1) (@broadcast_values 1 unit)
             [:: layer_a; layer_b] [:: 1%Re; 2%Re] [::] false
             (erefl _) (erefl _).
have Hb := @stack_s_matrixE 1 unit (@solve_inv 1) (@broadcast_values 1 unit)
             [:: layer_c] [:: 3%Re] [::] true (erefl _) (erefl _).
do 2![eexists]; split; [exact: Ha | exact: Hb |].
exact: (@redheffer_star_product_single_layer 1 unit (@solve_inv 1)
          (@broadcast_values 1 unit) (@solve_inv_identity 1)
          _ _ layer_c 3%Re true true Hb).
Defined.

Lemma stack_s_matrices_interior_substacks_witness :
  exists (res : seq (ScatteringMatrix 1 unit * ScatteringMatrix 1 unit))
         (before after : ScatteringMatrix 1 unit),
    [/\ stack_s_matrices_interior (@solve_inv 1) (@broadcast_values 1 unit)
          [:: layer_a; layer_b; layer_c] [:: 1%Re; 2%Re; 3%Re] false =
        ret res,
        size res = size [:: layer_a; layer_b; layer_c],
        getitem res 1 = ret (before, block_swap after),
        stack_s_matrix (@solve_inv 1) (@broadcast_values 1 unit)
          (take 2 [:: layer_a; layer_b; layer_c])
          (take 2 [:: 1%Re; 2%Re; 3%Re]) false = ret before
      & stack_s_matrix (@solve_inv 1) (@broadcast_values 1 unit)
          (rev (drop 1 [:: layer_a; layer_b; layer_c]))
          (rev (drop 1 [:: 1%Re; 2%Re; 3%Re])) false = ret after].
Proof.
exact: (@stack_s_matrices_interior_substacks 1 unit (@solve_inv 1)
          (@broadcast_values 1 unit) [::]
          [:: layer_a; layer_b; layer_c] [:: 1%Re; 2%Re; 3%Re] false 1
          (erefl _) isT isT).
Defined.

Lemma stack_s_matrix_rcons_witness :
  exists s : ScatteringMatrix 1 unit,
    stack_s_matrix (@solve_inv 1) (@broadcast_values 1 unit)
      [:: layer_a; layer_b] [:: 1%Re; 2%Re] false = ret s /\
    stack_s_matrix (@solve_inv 1) (@broadcast_values 1 unit)
      (rcons [:: layer_a; layer_b] layer_c) (rcons [:: 1%Re; 2%Re] 3%Re)
      false =
    ret (append_layer (@solve_inv 1) s
           (stored_layer (@broadcast_values 1 unit) [::] layer_c) 3%Re false).
Proof.
exact: (@stack_s_matrix_rcons 1 unit (@solve_inv 1)
          (@broadcast_values 1 unit) [::] [:: layer_a; layer_b]
          [:: 1%Re; 2%Re] layer_c 3%Re false isT (erefl _) isT).
Defined.

Lemma set_thickness_of_added_layer_witness :
  set_end_layer_thickness
    (append_layer (@solve_inv 1) (identity_s_matrix layer_a 1%Re)
       layer_b 2%Re false) 5%Re =
  append_layer (@solve_inv 1) (identity_s_matrix layer_a 1%Re)
    layer_b 5%Re false /\
  set_start_layer_thickness
    (prepend_layer (@solve_inv 1) (identity_s_matrix layer_a 1%Re)
       layer_b 2%Re false) 5%Re =
  prepend_layer (@solve_inv 1) (identity_s_matrix layer_a 1%Re)
    layer_b 5%Re false.
Proof.
exact: (@set_thickness_of_added_layer 1 unit (@solve_inv 1)
          (@solve_inv_scale_cols 1) (identity_s_matrix layer_a 1%Re)
          layer_b 2%Re 5%Re false).
Defined.

(** Two eigenvalues, 0 and 1, in a batch of one element. *)
Definition two_eigenvalues : batched unit 'rV[C]_2 :=
  fun _ => \row_j (if j == ord0 then 0 else 1).

Lemma RtoC2_neq0 : RtoC 2 <> 0.
Proof. by move=> /(congr1 Re) /=; lra. Qed.

Lemma two_eigenvalues_range :
  Rle _EIG_EPS_MINIMUM
    (Rmult 1
       (Cnormsq (two_eigenvalues tt 0 ord_max - two_eigenvalues tt 0 ord0))).
Proof.
rewrite /two_eigenvalues !mxE /= subr0 /_EIG_EPS_MINIMUM /Cnormsq.
by rewrite /GRing.one /=; lra.
Qed.

Lemma two_eigenvalues_scaled_range :
  Rle _EIG_EPS_MINIMUM
    (Rmult 1
       (Cnormsq (RtoC 2 * (two_eigenvalues tt 0 ord_max
                           - two_eigenvalues tt 0 ord0)))).
Proof.
rewrite /two_eigenvalues !mxE /= subr0 mulr1 /_EIG_EPS_MINIMUM /Cnormsq /=.
by lra.
Qed.

Lemma f_broadened_scaling_witness :
  eig_eps (fun b' => RtoC 2 *: two_eigenvalues b') 1 tt =
  (Cnormsq (RtoC 2) * eig_eps two_eigenvalues 1 tt)%Re /\
  f_broadened (fun b' => RtoC 2 *: two_eigenvalues b') 1 tt ord0 ord_max
  * RtoC 2 =
  f_broadened two_eigenvalues 1 tt ord0 ord_max.
Proof.
exact: (@f_broadened_scaling unit 1 (RtoC 2) two_eigenvalues 1%Re tt
          ord0 ord_max ord0 ord_max RtoC2_neq0 Rle_0_1
          two_eigenvalues_range two_eigenvalues_scaled_range).
Defined.

(** Cotangents whose eigenvector part vanishes at the batch index [true]
    only. *)
Definition eigenvalue_cotangents
  : batched bool 'rV[C]_2 * batched bool 'M[C]_2 :=
  (fun _ => const_mx 1, fun b => if b then 0 else const_mx 1).

Lemma eigenvalue_formula_off_diagonal (n : nat) (g : 'rV[C]_n.+1)
    (i j : 'I_n.+1) :
  i != j ->
  map_mx Cconj
    (invmx (matrix_adjoint 1%:M) *m
     (diag (map_mx Cconj g) *m matrix_adjoint 1%:M)) i j = 0.
Proof.
move=> ne; rewrite matrix_adjoint1 invmx1 mul1mx mulmx1 !mxE (negbTE ne).
by rewrite mulr0n Cconj0.
Qed.

Lemma spectrum_f_broadened_neq0 (m : batched bool 'M[C]_2) (b : bool)
    (x : R) :
  m b = diag2 0 (RtoC x) -> (1 <= x * x)%Re -> (0 < x)%Re ->
  f_broadened (spectrum m) 1e-12 b ord0 ord_max <> 0.
Proof.
move=> e fl xpos /(congr1 Re).
rewrite (spectrum_f_broadened e (floor_below fl)) /=.
have -> : (x / (x * x + 1e-12 * (x * x)) = / (x * (1 + 1e-12)))%Re.
  by field; lra.
have : (0 < / (x * (1 + 1e-12)))%Re.
  by apply: Rinv_0_lt_compat; apply: Rmult_lt_0_compat; lra.
by lra.
Qed.

Lemma batch_x_f_broadened_true :
  f_broadened (spectrum batch_x) 1e-12 true ord0 ord_max <> 0.
Proof.
apply: (@spectrum_f_broadened_neq0 batch_x true 1 (erefl _)); lra.
Qed.

Lemma eigenvalue_formula_false :
  (_eig_bwd (fun x y : 'M[C]_2 => invmx x *m y)
     (spectrum batch_x, (fun _ : bool => 1%:M), 1e-12%Re)
     eigenvalue_cotangents).1 false <>
  map_mx Cconj
    (invmx (matrix_adjoint 1%:M) *m
     (diag (map_mx Cconj (eigenvalue_cotangents.1 false)) *m
      matrix_adjoint 1%:M)).
Proof.
move=> /matrixP /(_ ord0 ord_max) H.
have {H} := etrans
  (esym (@eig_bwd_off_diagonal bool 1 (spectrum batch_x) (fun _ => 1%:M)
           1e-12 eigenvalue_cotangents.1 eigenvalue_cotangents.2 false
           ord0 ord_max (erefl _) isT))
  (etrans H (@eigenvalue_formula_off_diagonal 1
               (eigenvalue_cotangents.1 false) ord0 ord_max isT)).
rewrite [eigenvalue_cotangents.2 false ord0 ord_max]mxE mulr1.
apply: (@spectrum_f_broadened_neq0 batch_x false 3 (erefl _)); lra.
Qed.

(** With eigenvalues 0 and 1, [f_broadened] is not zero; at the index
    [false], where the cotangent of the eigenvectors is not zero, the
    gradient is not given by the eigenvalue formula; at the index [true],
    where it is zero, it is. *)
Lemma eig_bwd_zero_eigenvector_cotangent_witness :
  [/\ f_broadened (spectrum batch_x) 1e-12 true ord0 ord_max <> 0,
      (_eig_bwd (fun x y : 'M[C]_2 => invmx x *m y)
         (spectrum batch_x, (fun _ : bool => 1%:M), 1e-12%Re)
         eigenvalue_cotangents).1 false <>
      map_mx Cconj
        (invmx (matrix_adjoint 1%:M) *m
         (diag (map_mx Cconj (eigenvalue_cotangents.1 false)) *m
          matrix_adjoint 1%:M))
    & (_eig_bwd (fun x y : 'M[C]_2 => invmx x *m y)
         (spectrum batch_x, (fun _ : bool => 1%:M), 1e-12%Re)
         eigenvalue_cotangents).1 true =
      map_mx Cconj
        (invmx (matrix_adjoint 1%:M) *m
         (diag (map_mx Cconj (eigenvalue_cotangents.1 true)) *m
          matrix_adjoint 1%:M))].
Proof.
exact: (And3 batch_x_f_broadened_true eigenvalue_formula_false
          (@eig_bwd_zero_eigenvector_cotangent bool 1
             (fun x y : 'M[C]_2 => invmx x *m y)
             (spectrum batch_x) (fun _ : bool => 1%:M) 1e-12%Re
             eigenvalue_cotangents.1 eigenvalue_cotangents.2 true
             (erefl _))).
Defined.
